(** * update-readme: a shallow embedding of [scripts/update-readme.py]

    The script reads the Compose files of a repository, renders a
    "Stack/Service Lineup" section and splices it into README.md.  This
    development embeds its two classes, [ComposeParser] and
    [ReadmeUpdater], together with the part of Python's [str] and [re]
    they rely on, and proves properties of the embedded functions.

    Conventions of the embedding:
    - a Python [str] is a list of Unicode code points ([N]);
    - what the interpreter knows about code points outside ASCII
      (alphanumeric, whitespace, case mappings) is a record [runtime]
      the functions take as a parameter: the ASCII part is fixed here;
    - a regular expression is a value of [regex], matched by a
      backtracking matcher with Python's priorities (leftmost, greedy or
      lazy repetition, ordered alternation);
    - an exception is a value [Raise e] of the type [exc];
    - the files the script reads and writes are the fields of [world];
      the encoding of text files and the standard output belong to
      [runtime]. *)

From Stdlib Require Import String Ascii DecimalString.
From Stdlib Require Import NArith ZArith Bool Lia List Sorted.
Import ListNotations.

Set Implicit Arguments.
Local Open Scope N_scope.

(* ================================================================== *)
(** * Python strings *)
(* ================================================================== *)

Module Str.

(** A [str] is a sequence of code points. *)
Definition str := list N.

(** Decoding of the UTF-8 bytes of a literal of this file into code
    points; [need] continuation bytes are still expected and [acc] holds
    the bits read so far. *)
Fixpoint utf8_go (need : nat) (acc : N) (bs : list N) : str :=
  match bs with
  | [] => []
  | b :: t =>
      match need with
      | O =>
          if b <? 128 then b :: utf8_go 0 0 t
          else if b <? 224 then utf8_go 1 (b - 192) t
          else if b <? 240 then utf8_go 2 (b - 224) t
          else utf8_go 3 (b - 240) t
      | S O => (acc * 64 + (b - 128)) :: utf8_go 0 0 t
      | S n => utf8_go n (acc * 64 + (b - 128)) t
      end
  end.

Definition u (s : string) : str :=
  utf8_go 0 0 (List.map N_of_ascii (list_ascii_of_string s)).

Definition NL : N := 10.
Definition HYPHEN : N := 45.
Definition BACKSLASH : N := 92.

Definition eqb (a b : str) : bool :=
  if list_eq_dec N.eq_dec a b then true else false.

(** [a < b] in Python's ordering of strings: lexicographic on code points. *)
Fixpoint ltb (a b : str) : bool :=
  match a, b with
  | _, [] => false
  | [], _ :: _ => true
  | x :: a', y :: b' => if x <? y then true else if y <? x then false else ltb a' b'
  end.

(** [s.startswith(p)], and the rest of [s] after the prefix. *)
Fixpoint strip_prefix (p s : str) : option str :=
  match p with
  | [] => Some s
  | x :: p' =>
      match s with
      | y :: s' => if x =? y then strip_prefix p' s' else None
      | [] => None
      end
  end.

Definition startswith (s p : str) : bool :=
  match strip_prefix p s with Some _ => true | None => false end.

(** [p in s] for a substring [p]. *)
Fixpoint contains (p s : str) : bool :=
  startswith s p || match s with [] => false | _ :: t => contains p t end.

(** [s.split(sep, 1)[1]] for a one-character separator: the text after
    its first occurrence, when there is one. *)
Fixpoint after_first (sep : N) (s : str) : option str :=
  match s with
  | [] => None
  | c :: t => if c =? sep then Some t else after_first sep t
  end.

(** [s.replace(c, "")] for a one-character [c]. *)
Definition remove_char (c : N) (s : str) : str :=
  List.filter (fun x => negb (x =? c)) s.

(** [sep.join(parts)]. *)
Fixpoint join (sep : str) (parts : list str) : str :=
  match parts with
  | [] => []
  | [p] => p
  | p :: rest => p ++ sep ++ join sep rest
  end.

(** [str(n)] for an integer. *)
Definition of_Z (z : Z) : str :=
  List.map N_of_ascii (list_ascii_of_string (NilZero.string_of_int (Z.to_int z))).

Definition of_nat (n : nat) : str := of_Z (Z.of_nat n).

(** ** [bytes]

    A [bytes] value is the list of its bytes.  [repr(b)], which is also
    what an f-string makes of [b]: double quotes when [b] has a single
    quote and no double quote, single quotes otherwise. *)
Definition bytes_quote (b : list N) : N :=
  if existsb (N.eqb 39) b && negb (existsb (N.eqb 34) b) then 34 else 39.

Definition hex_digit (d : N) : N := if d <? 10 then 48 + d else 87 + d.

Definition bytes_repr_char (quote c : N) : str :=
  if (c =? quote) || (c =? BACKSLASH) then [BACKSLASH; c]
  else if c =? 9 then [BACKSLASH; 116]
  else if c =? 10 then [BACKSLASH; 110]
  else if c =? 13 then [BACKSLASH; 114]
  else if (c <? 32) || (127 <=? c)
       then [BACKSLASH; 120; hex_digit (c / 16); hex_digit (c mod 16)]
  else [c].

Definition bytes_repr (b : list N) : str :=
  let quote := bytes_quote b in
  98 :: quote :: List.flat_map (bytes_repr_char quote) b ++ [quote].

(** [b.lower()] and [b.capitalize()], which know the ASCII letters only. *)
Definition bytes_lower (b : list N) : list N :=
  List.map (fun c => if (65 <=? c) && (c <=? 90) then c + 32 else c) b.

Definition bytes_capitalize (b : list N) : list N :=
  match b with
  | [] => []
  | c :: t => (if (97 <=? c) && (c <=? 122) then c - 32 else c) :: bytes_lower t
  end.

End Str.

Import Str.

(* ================================================================== *)
(** * Values loaded from YAML *)
(* ================================================================== *)

(** What [yaml.safe_load] returns.  A mapping keeps its entries in
    insertion order; [YBytes] is a [!!binary] scalar, [YSet] a [!!set];
    [YOther] is any other scalar (a float, a date), known by its [str()]
    text and its truth value. *)
#[local] Unset Elimination Schemes.
Inductive yaml :=
| YNull
| YBool (b : bool)
| YInt (z : Z)
| YStr (s : str)
| YBytes (b : list N)
| YOther (shown : str) (truthy : bool)
| YList (l : list yaml)
| YSet (l : list yaml)
| YDict (d : list (yaml * yaml)).
#[local] Set Elimination Schemes.

(** [d.get(key)] for a string [key]: only a string key equals it. *)
Fixpoint dict_get (d : list (yaml * yaml)) (key : str) : option yaml :=
  match d with
  | [] => None
  | (YStr k, v) :: d' => if Str.eqb k key then Some v else dict_get d' key
  | _ :: d' => dict_get d' key
  end.

(** [bool(v)]. *)
Definition truthy (v : yaml) : bool :=
  match v with
  | YNull => false
  | YBool b => b
  | YInt z => negb (z =? 0)%Z
  | YStr s => match s with [] => false | _ => true end
  | YBytes b => match b with [] => false | _ => true end
  | YOther _ t => t
  | YList l => match l with [] => false | _ => true end
  | YSet l => match l with [] => false | _ => true end
  | YDict d => match d with [] => false | _ => true end
  end.

(* ================================================================== *)
(** * The syntax of regular expressions *)
(* ================================================================== *)

Module Pattern.

(** The constructions of [re] the script uses.  A repetition is always
    over a class of one character ([\s*], [.+?], [[^\]]+] ...); [x+] is
    written [Cat (Cls x) (Rep true x)] and [x+?] is
    [Cat (Cls x) (Rep false x)]. *)
Inductive regex :=
| Lit (ci : bool) (s : str)        (* escaped literal text; [ci]: IGNORECASE *)
| Cls (p : N -> bool)              (* one character of a class *)
| Rep (greedy : bool) (p : N -> bool)
| Cat (a b : regex)
| Alt (a b : regex)
| Grp (n : nat) (r : regex)        (* capture group number [n] *)
| Ahead (r : regex)                (* [(?=r)] *)
| Bos                              (* [^] without MULTILINE *)
| Bol                              (* [^] with MULTILINE *)
| Eol                              (* [$] with MULTILINE *)
| Eoz.                             (* [\Z] *)

(** [.] without DOTALL, and with it. *)
Definition dot (c : N) : bool := negb (c =? NL).
Definition dotall (c : N) : bool := true.
(** The class of every character but [x]. *)
Definition other_than (x c : N) : bool := negb (c =? x).

(** A pattern written as the sequence of its parts. *)
Fixpoint seq (l : list regex) : regex :=
  match l with
  | [] => Lit false []
  | [r] => r
  | r :: l' => Cat r (seq l')
  end.

End Pattern.

Import Pattern.

(* ================================================================== *)
(** * Exceptions *)
(* ================================================================== *)

Inductive error :=
| TypeError
| AttributeError
| IndexError
| LoadError          (* the file could not be read or is not YAML *)
| ReError            (* [re.error]: a bad pattern or replacement template *)
| UnicodeEncodeError (* a text the encoding of the file cannot hold *)
| OutputError        (* a [print] the standard output does not take *)
| ValueError (msg : str).

Inductive exc (A : Type) :=
| Ret (a : A)
| Raise (e : error).

Arguments Ret {A} a.
Arguments Raise {A} e.

Definition bind {A B} (m : exc A) (f : A -> exc B) : exc B :=
  match m with
  | Ret a => f a
  | Raise e => Raise e
  end.

Notation "x <- m ;; k" := (bind m (fun x => k))
  (at level 61, m at next level, right associativity).

(** [try: m  except Exception: return d]. *)
Definition try_except {A} (m : exc A) (d : A) : A :=
  match m with
  | Ret a => a
  | Raise _ => d
  end.

(* ================================================================== *)
(** * What is printed *)
(* ================================================================== *)

(** The paths the messages show: [ROOT_COMPOSE], and
    [STACKS_DIR / stack / "compose.yaml"]. *)
Inductive path :=
| RootCompose
| StackCompose (stack : str).

(** A call of [print].  The lines that show a path or an exception are
    kept as such. *)
Inductive printed :=
| Line (text : str)
| ExpectedAt (stack : str) (expected_path : path)
                     (* "  - {stack} (expected at: {expected_path})" *)
| ErrorParsing (compose_path : path) (e : error)
                     (* "Error parsing {compose_path}: {e}" *)
| ReadmeNotFound.    (* "Error: README.md not found at {README_PATH}" *)

(* ================================================================== *)
(** * The interpreter *)
(* ================================================================== *)

(** What the program takes from the interpreter and this development
    does not fix: the Unicode tables on the code points from 128 up, the
    [repr] of a list, a set or a mapping, the patterns compiled for a
    service name that is a [bytes] with a byte outside [[A-Za-z0-9_]],
    the encoding of the files opened as text and the standard output.
    For a [bytes] name the text of the pattern embeds
    [repr(re.escape(name))], in which every escaped character comes
    after a doubled backslash and is read as syntax again: [None] is a
    text that does not compile. *)
Record runtime := {
  u_alnum : N -> bool;        (* [str.isalnum] of the one-character string *)
  u_space : N -> bool;        (* [str.isspace] *)
  u_lower : N -> str;         (* full lower-case mapping *)
  u_title : N -> str;         (* full title-case mapping *)
  u_cased : N -> bool;        (* the character is cased *)
  u_fold_eq : N -> N -> bool; (* equal under [re.IGNORECASE] *)
  container_repr : yaml -> str;
  bytes_service_pattern : list N -> option regex;
                              (* [rf"^\s*#\s*{re.escape(name)}:"] *)
  bytes_comment_pattern : list N -> option regex;
                              (* [rf"#\s*(.+?)\n\s*{re.escape(name)}:"] *)
  encodes : N -> bool;        (* the encoding of text files has the character *)
  console : printed -> bool   (* [print] of the line succeeds *)
}.

(** [print(line)], and a sequence of such calls. *)
Definition print_line (U : runtime) (line : printed) : exc unit :=
  if console U line then Ret tt else Raise OutputError.

Fixpoint print_lines (U : runtime) (lines : list printed) : exc unit :=
  match lines with
  | [] => Ret tt
  | line :: rest => _ <- print_line U line ;; print_lines U rest
  end.

Module Py.

Section Classes.
Variable U : runtime.

Definition is_ascii (c : N) : bool := c <? 128.

Definition ascii_upper (c : N) : bool := (65 <=? c) && (c <=? 90).
Definition ascii_lower (c : N) : bool := (97 <=? c) && (c <=? 122).
Definition ascii_digit (c : N) : bool := (48 <=? c) && (c <=? 57).

(** [c.isspace()], which is also the class [\s] of a [str] pattern:
    tab to carriage return, the four separators 28..31 and the space. *)
Definition is_space (c : N) : bool :=
  if is_ascii c
  then ((9 <=? c) && (c <=? 13)) || ((28 <=? c) && (c <=? 31)) || (c =? 32)
  else u_space U c.

(** The class [\w] of a [str] pattern: alphanumeric or underscore. *)
Definition is_word (c : N) : bool :=
  if is_ascii c
  then ascii_upper c || ascii_lower c || ascii_digit c || (c =? 95)
  else u_alnum U c.

Definition lower1 (c : N) : str :=
  if is_ascii c then [if ascii_upper c then c + 32 else c] else u_lower U c.

Definition title1 (c : N) : str :=
  if is_ascii c then [if ascii_lower c then c - 32 else c] else u_title U c.

Definition is_cased (c : N) : bool :=
  if is_ascii c then ascii_upper c || ascii_lower c else u_cased U c.

(** [s.lower()], character by character (the position-dependent
    lowering of a final capital sigma is left to [u_lower]). *)
Definition lower (s : str) : str := List.flat_map lower1 s.

(** [s.capitalize()]: first character title-cased, the rest lowered. *)
Definition capitalize (s : str) : str :=
  match s with
  | [] => []
  | c :: t => title1 c ++ lower t
  end.

(** [s.title()]: a character after a cased one is lowered, any other is
    title-cased. *)
Fixpoint title_go (prev_cased : bool) (s : str) : str :=
  match s with
  | [] => []
  | c :: t => (if prev_cased then lower1 c else title1 c) ++ title_go (is_cased c) t
  end.

Definition title (s : str) : str := title_go false s.

(** [s.lstrip()], [s.rstrip()] and [s.strip()]. *)
Fixpoint lstrip (s : str) : str :=
  match s with
  | c :: t => if is_space c then lstrip t else s
  | [] => []
  end.

Definition rstrip (s : str) : str := rev (lstrip (rev s)).

Definition strip (s : str) : str := rstrip (lstrip s).

(** Equality of two characters under [re.IGNORECASE]. *)
Definition ieq (a b : N) : bool :=
  (a =? b) ||
  (if is_ascii a && is_ascii b
   then (if ascii_upper a then a + 32 else a) =? (if ascii_upper b then b + 32 else b)
   else u_fold_eq U a b).

(** [str(v)], as an f-string formats [v]. *)
Definition to_str (v : yaml) : str :=
  match v with
  | YNull => u "None"
  | YBool true => u "True"
  | YBool false => u "False"
  | YInt z => of_Z z
  | YStr s => s
  | YBytes b => bytes_repr b
  | YOther shown _ => shown
  | YList _ | YSet _ | YDict _ => container_repr U v
  end.

End Classes.

End Py.

Import Py.

(* ================================================================== *)
(** * Regular expressions *)
(* ================================================================== *)

Module Re.

Definition groups := list (nat * str).

Fixpoint group (n : nat) (g : groups) : option str :=
  match g with
  | [] => None
  | (m, s) :: g' => if Nat.eqb n m then Some s else group n g'
  end.

Section Matcher.
Variable U : runtime.

(** Matching a literal at the head of [s]; [prev] is the character
    before the current position, if any. *)
Fixpoint lit_match (ci : bool) (l s : str) (prev : option N) : option (option N * str) :=
  match l with
  | [] => Some (prev, s)
  | a :: l' =>
      match s with
      | c :: s' =>
          if (if ci then ieq U a c else a =? c) then lit_match ci l' s' (Some c) else None
      | [] => None
      end
  end.

(** Repetition of a class, followed by the continuation [k]: the greedy
    one takes a further character first, the lazy one tries [k] first. *)
Fixpoint rep {A} (greedy : bool) (p : N -> bool) (prev : option N) (s : str)
    (k : option N -> str -> option A) : option A :=
  match s with
  | c :: t =>
      if p c then
        if greedy then
          match rep greedy p (Some c) t k with
          | Some r => Some r
          | None => k prev s
          end
        else
          match k prev s with
          | Some r => Some r
          | None => rep greedy p (Some c) t k
          end
      else k prev s
  | [] => k prev s
  end.

(** The backtracking matcher, in continuation-passing style: [k]
    receives the position reached and the groups set so far; [None] asks
    for the next alternative. *)
Fixpoint rmatch (r : regex) {A} (prev : option N) (s : str) (g : groups)
    (k : option N -> str -> groups -> option A) : option A :=
  match r with
  | Lit ci l =>
      match lit_match ci l s prev with
      | Some (prev', s') => k prev' s' g
      | None => None
      end
  | Cls p =>
      match s with
      | c :: t => if p c then k (Some c) t g else None
      | [] => None
      end
  | Rep greedy p => rep greedy p prev s (fun prev' s' => k prev' s' g)
  | Cat a b => rmatch a prev s g (fun prev' s' g' => rmatch b prev' s' g' k)
  | Alt a b =>
      match rmatch a prev s g k with
      | Some x => Some x
      | None => rmatch b prev s g k
      end
  | Grp n r' =>
      rmatch r' prev s g
        (fun prev' s' g' => k prev' s' ((n, firstn (length s - length s') s) :: g'))
  | Ahead r' =>
      match rmatch r' prev s g (fun _ _ g' => Some g') with
      | Some g' => k prev s g'
      | None => None
      end
  | Bos => match prev with None => k prev s g | Some _ => None end
  | Bol =>
      match prev with
      | None => k prev s g
      | Some c => if c =? NL then k prev s g else None
      end
  | Eol =>
      match s with
      | [] => k prev s g
      | c :: _ => if c =? NL then k prev s g else None
      end
  | Eoz => match s with [] => k prev s g | _ :: _ => None end
  end.

(** A match: the text before it, the matched text (group 0), the groups
    and the text after it. *)
Record found := {
  f_pre : str;
  f_text : str;
  f_groups : groups;
  f_post : str
}.

(** The match of [r] that starts at the current position, if any: the
    rest of the text after it and its groups. *)
Definition match_at (r : regex) (prev : option N) (s : str) : option (str * groups) :=
  rmatch r prev s [] (fun _ s' g => Some (s', g)).

Definition push (c : N) (f : found) : found :=
  {| f_pre := c :: f_pre f; f_text := f_text f;
     f_groups := f_groups f; f_post := f_post f |}.

(** [re.search]: the match at the leftmost position that has one. *)
Fixpoint search_from (r : regex) (prev : option N) (s : str) : option found :=
  match match_at r prev s with
  | Some (s', g) =>
      Some {| f_pre := []; f_text := firstn (length s - length s') s;
              f_groups := g; f_post := s' |}
  | None =>
      match s with
      | [] => None
      | c :: t => option_map (push c) (search_from r (Some c) t)
      end
  end.

Definition search (r : regex) (s : str) : option found := search_from r None s.

(** [re.finditer]: the successive matches, none overlapping another.
    [skip] characters of the last match are still to be passed.  No
    pattern of the script matches the empty string; an empty match is
    passed over. *)
Fixpoint finditer_go (r : regex) (skip : nat) (prev : option N) (s : str)
    : list (str * groups) :=
  match s with
  | [] => []
  | c :: t =>
      match skip with
      | S n => finditer_go r n (Some c) t
      | O =>
          match match_at r prev s with
          | Some (s', g) =>
              match length s - length s' with
              | O => finditer_go r 0 (Some c) t
              | S n => (firstn (S n) s, g) :: finditer_go r n (Some c) t
              end
          | None => finditer_go r 0 (Some c) t
          end
      end
  end%nat.

Definition finditer (r : regex) (s : str) : list (str * groups) :=
  finditer_go r 0 None s.

(** [re.sub] with the replacement already expanded: [repl] gives the
    text that replaces a match. *)
Fixpoint sub_go (r : regex) (repl : str -> str) (skip : nat) (prev : option N)
    (s : str) : str :=
  match s with
  | [] => []
  | c :: t =>
      match skip with
      | S n => sub_go r repl n (Some c) t
      | O =>
          match match_at r prev s with
          | Some (s', _) =>
              match length s - length s' with
              | O => c :: sub_go r repl 0 (Some c) t
              | S n => repl (firstn (S n) s) ++ sub_go r repl n (Some c) t
              end
          | None => c :: sub_go r repl 0 (Some c) t
          end
      end
  end%nat.

(** [re.sub(r, repl, s)] for a replacement [repl] without backslash,
    which stands for itself. *)
Definition sub_plain (r : regex) (repl : str) (s : str) : str :=
  sub_go r (fun _ => repl) 0 None s.

(** [m.group(n)] of a group that took part in the match. *)
Definition grp (n : nat) (g : groups) : str :=
  match group n g with
  | Some s => s
  | None => []
  end.

End Matcher.

(** ** Replacement templates

    [re.sub] reads its replacement as a template.  The patterns the
    script substitutes with a computed replacement have no capture
    group, so that the only valid reference is [\g<0>], the whole
    match. *)
Inductive titem :=
| TChr (c : N)
| TWhole.

Definition octal (c : N) : bool := (48 <=? c) && (c <=? 55).

(** Reading state: plain text, or inside the name of [\g<name>], of
    which only whether it is a non-empty run of zeros matters. *)
Inductive tmode :=
| TText
| TName (zeros : bool) (empty : bool).

Fixpoint parse_template (m : tmode) (t : str) : option (list titem) :=
  match m with
  | TName zeros empty =>
      match t with
      | [] => None                                   (* unterminated name *)
      | c :: t' =>
          if c =? 62 (* > *) then
            if zeros && negb empty
            then option_map (cons TWhole) (parse_template TText t')
            else None                                (* unknown or invalid group *)
          else parse_template (TName (zeros && (c =? 48)) false) t'
      end
  | TText =>
      match t with
      | [] => Some []
      | c :: t' =>
          if negb (c =? BACKSLASH) then option_map (cons (TChr c)) (parse_template TText t')
          else
            match t' with
            | [] => None                             (* bad escape (end of pattern) *)
            | e :: t1 =>
                if e =? 103 (* g *) then
                  match t1 with
                  | lt :: t2 => if lt =? 60 (* < *) then parse_template (TName true true) t2 else None
                  | [] => None
                  end
                else if e =? 48 (* 0: an octal escape of up to three digits *) then
                  match t1 with
                  | d1 :: t2 =>
                      if octal d1 then
                        match t2 with
                        | d2 :: t3 =>
                            if octal d2
                            then option_map (cons (TChr (((d1 - 48) * 8 + (d2 - 48)) mod 256)))
                                   (parse_template TText t3)
                            else option_map (cons (TChr (d1 - 48))) (parse_template TText t2)
                        | [] => Some [TChr (d1 - 48)]
                        end
                      else option_map (cons (TChr 0)) (parse_template TText t1)
                  | [] => Some [TChr 0]
                  end
                else if ascii_digit e then
                  (* three octal digits are a character, anything else a
                     reference to a group the pattern does not have *)
                  match t1 with
                  | d1 :: t2 =>
                      match t2 with
                      | d2 :: t3 =>
                          if octal e && octal d1 && octal d2 then
                            let v := ((e - 48) * 8 + (d1 - 48)) * 8 + (d2 - 48) in
                            if 255 <? v then None
                            else option_map (cons (TChr v)) (parse_template TText t3)
                          else None
                      | [] => None
                      end
                  | [] => None
                  end
                else
                  let keep (x : N) := option_map (cons (TChr x)) (parse_template TText t1) in
                  if e =? 97 then keep 7            (* \a *)
                  else if e =? 98 then keep 8       (* \b *)
                  else if e =? 102 then keep 12     (* \f *)
                  else if e =? 110 then keep 10     (* \n *)
                  else if e =? 114 then keep 13     (* \r *)
                  else if e =? 116 then keep 9      (* \t *)
                  else if e =? 118 then keep 11     (* \v *)
                  else if e =? BACKSLASH then keep BACKSLASH
                  else if ascii_upper e || ascii_lower e then None   (* bad escape *)
                  else option_map (fun l => TChr BACKSLASH :: TChr e :: l)
                         (parse_template TText t1)
            end
      end
  end.

Definition expand (items : list titem) (whole : str) : str :=
  List.flat_map (fun i => match i with TChr c => [c] | TWhole => whole end) items.

(** [re.sub(r, template, s)]: the template is compiled first, and a bad
    one raises [re.error] whether or not [r] matches. *)
Definition sub (U : runtime) (r : regex) (template : str) (s : str) : exc str :=
  match parse_template TText template with
  | None => Raise ReError
  | Some items => Ret (sub_go U r (expand items) 0 None s)
  end.

End Re.

Import Re.

(* ================================================================== *)
(** * class ComposeParser *)
(* ================================================================== *)

Module ComposeParser.

(** The name of a service is a key of the [services] mapping that
    [re.escape] accepts: a [str], or a [bytes]. *)
Inductive pyname :=
| NStr (s : str)
| NBytes (b : list N).

Definition name_of_key (key : yaml) : option pyname :=
  match key with
  | YStr s => Some (NStr s)
  | YBytes b => Some (NBytes b)
  | _ => None
  end.

Definition key_of_name (name : pyname) : yaml :=
  match name with
  | NStr s => YStr s
  | NBytes b => YBytes b
  end.

(** [a < b] for two names: a [str] and a [bytes] do not compare. *)
Definition name_ltb (a b : pyname) : exc bool :=
  match a, b with
  | NStr x, NStr y => Ret (Str.ltb x y)
  | NBytes x, NBytes y => Ret (Str.ltb x y)
  | _, _ => Raise TypeError
  end.

(** A parsed service: [(service_name, description, url)].  The
    description is the label's value as loaded when it comes from a
    mapping of labels, hence a [yaml]. *)
Definition service := (pyname * yaml * option str)%type.

Definition service_name (s : service) : pyname := fst (fst s).
Definition description (s : service) : yaml := snd (fst s).
Definition url (s : service) : option str := snd s.

(** A Compose file on disk: its text, and what [yaml.safe_load] makes
    of it ([None] when opening or loading raises). *)
Record compose_file := {
  raw : str;
  loaded : option yaml
}.

Definition COLON : N := 58.

(** The bytes [re.escape] and [repr] leave as they are. *)
Definition plain_byte (c : N) : bool :=
  ((65 <=? c) && (c <=? 90)) || ((97 <=? c) && (c <=? 122))
  || ((48 <=? c) && (c <=? 57)) || (c =? 95).

Section Parser.
Variable U : runtime.

(** The loop over a list of labels in [extract_description]:
    [[
      for label in labels:
          if isinstance(label, str) and label.startswith("homepage.description:"):
              return label.split(":", 1)[1].strip()
    ]] *)
Fixpoint description_in_list (labels : list yaml) : exc (option yaml) :=
  match labels with
  | [] => Ret None
  | YStr label :: rest =>
      if startswith label (u "homepage.description:") then
        match after_first COLON label with
        | Some v => Ret (Some (YStr (strip U v)))
        | None => Raise IndexError
        end
      else description_in_list rest
  | _ :: rest => description_in_list rest
  end.

(** [rf"#\s*(.+?)\n\s*{re.escape(service_name)}:"] *)
Definition comment_pattern (name : str) : regex :=
  seq [ Lit false (u "#"); Rep true (is_space U);
        Grp 1 (Cat (Cls dot) (Rep false dot));
        Lit false [NL]; Rep true (is_space U);
        Lit false name; Lit false (u ":") ].

(** [r"^[-*]\s*"] *)
Definition bullet_pattern : regex :=
  seq [ Bos; Cls (fun c => (c =? 45) || (c =? 42)); Rep true (is_space U) ].

(** The second source of a description: the comment above the
    declaration of the service, found by [pattern]. *)
Definition comment_found_by (pattern : regex) (compose_content : str) : str :=
  match search U pattern compose_content with
  | Some m =>
      let comment := strip U (grp 1 (f_groups m)) in
      let comment := sub_plain U bullet_pattern [] comment in
      if (match comment with [] => false | _ => true end)
         && negb (startswith comment (u "!"))
      then comment
      else []
  | None => []
  end.

Definition comment_description (name compose_content : str) : str :=
  comment_found_by (comment_pattern name) compose_content.

(** The pattern of the comment for a name of either type.  For a
    [bytes] the f-string puts [repr(re.escape(name))] in the pattern:
    when every byte is a letter, a digit or an underscore nothing is
    escaped and the pattern has the literal text [b'...']. *)
Definition comment_pattern_of (name : pyname) : exc regex :=
  match name with
  | NStr s => Ret (comment_pattern s)
  | NBytes b =>
      if forallb plain_byte b then Ret (comment_pattern (bytes_repr b))
      else
        match bytes_comment_pattern U b with
        | Some pattern => Ret pattern
        | None => Raise ReError
        end
  end.

Definition extract_description (service_data : list (yaml * yaml))
    (name : pyname) (compose_content : str) : exc yaml :=
  let labels :=
    match dict_get service_data (u "labels") with
    | Some v => v
    | None => YDict []
    end in
  from_label <-
    match labels with
    | YDict d =>
        match dict_get d (u "homepage.description") with
        | Some desc => Ret (if truthy desc then Some desc else None)
        | None => Ret None
        end
    | YList l => description_in_list l
    | _ => Ret None
    end ;;
  match from_label with
  | Some desc => Ret desc
  | None =>
      pattern <- comment_pattern_of name ;;
      Ret (YStr (comment_found_by pattern compose_content))
  end.

(** [r"Host\(`([^`]+)`\)"] *)
Definition host_pattern : regex :=
  seq [ Lit false (u "Host(`");
        Grp 1 (Cat (Cls (other_than 96)) (Rep true (other_than 96)));
        Lit false (u "`)") ].

(** [r"\$\{DOMAIN[^}]*\}"] *)
Definition domain_pattern : regex :=
  seq [ Lit false (u "${DOMAIN"); Rep true (other_than 125); Lit false (u "}") ].

Definition is_router_rule (key : str) : bool :=
  contains (u "traefik.http.routers") key && contains (u ".rule") key.

(** The URL of a rule, when it names a host. *)
Definition url_of_rule (domain rule : str) : exc (option str) :=
  match search U host_pattern rule with
  | Some m =>
      host <- Re.sub U domain_pattern domain (grp 1 (f_groups m)) ;;
      Ret (Some (u "https://" ++ host))
  | None => Ret None
  end.

(** The loop over a mapping of labels: a key that is not a string makes
    the [in] test raise, and so does a rule that is not a string. *)
Fixpoint url_in_dict (domain : str) (labels : list (yaml * yaml)) : exc (option str) :=
  match labels with
  | [] => Ret None
  | (YStr key, value) :: rest =>
      if is_router_rule key then
        match value with
        | YStr rule =>
            found <- url_of_rule domain rule ;;
            match found with
            | Some url => Ret (Some url)
            | None => url_in_dict domain rest
            end
        | _ => Raise TypeError
        end
      else url_in_dict domain rest
  | _ :: _ => Raise TypeError
  end.

Fixpoint url_in_list (domain : str) (labels : list yaml) : exc (option str) :=
  match labels with
  | [] => Ret None
  | YStr label :: rest =>
      if is_router_rule label then
        found <- url_of_rule domain label ;;
        match found with
        | Some url => Ret (Some url)
        | None => url_in_list domain rest
        end
      else url_in_list domain rest
  | _ :: rest => url_in_list domain rest
  end.

Definition extract_url (service_data : list (yaml * yaml)) (domain : str)
    : exc (option str) :=
  match dict_get service_data (u "labels") with
  | Some (YDict d) => url_in_dict domain d
  | Some (YList l) => url_in_list domain l
  | _ => Ret None
  end.

(** [rf"^\s*#\s*{re.escape(service_name)}:"], searched with MULTILINE. *)
Definition service_pattern (name : str) : regex :=
  seq [ Bol; Rep true (is_space U); Lit false (u "#"); Rep true (is_space U);
        Lit false name; Lit false (u ":") ].

Definition commented_out (name compose_content : str) : bool :=
  match search U (service_pattern name) compose_content with
  | Some _ => true
  | None => false
  end.

(** The test on a commented-out declaration for a name of either
    type. *)
Definition skipped (name : pyname) (compose_content : str) : exc bool :=
  match name with
  | NStr s => Ret (commented_out s compose_content)
  | NBytes b =>
      if forallb plain_byte b then Ret (commented_out (bytes_repr b) compose_content)
      else
        match bytes_service_pattern U b with
        | Some pattern =>
            Ret (match search U pattern compose_content with
                 | Some _ => true
                 | None => false
                 end)
        | None => Raise ReError
        end
  end.

(** The loop of [parse_compose_file] over [data["services"].items()].
    [re.escape] raises on a key that is neither a [str] nor a [bytes]. *)
Fixpoint each_service (compose_content : str) (items : list (yaml * yaml))
    : exc (list service) :=
  match items with
  | [] => Ret []
  | (key, YDict service_data) :: rest =>
      match name_of_key key with
      | Some name =>
          skip <- skipped name compose_content ;;
          if skip then each_service compose_content rest
          else
            desc <- extract_description service_data name compose_content ;;
            link <- extract_url service_data (u "DOMAIN") ;;
            services <- each_service compose_content rest ;;
            Ret ((name, desc, link) :: services)
      | None => Raise TypeError
      end
  | _ :: rest => each_service compose_content rest
  end.

(** [x[0].lower()], the key of the sort. *)
Definition sort_key (s : service) : pyname :=
  match service_name s with
  | NStr x => NStr (lower U x)
  | NBytes b => NBytes (bytes_lower b)
  end.

(** [services.sort(key=lambda x: x[0].lower())], a stable sort; it
    raises when it compares a [str] with a [bytes]. *)
Fixpoint insert_service (s : service) (l : list service) : exc (list service) :=
  match l with
  | [] => Ret [s]
  | t :: l' =>
      before <- name_ltb (sort_key t) (sort_key s) ;;
      if before
      then (rest <- insert_service s l' ;; Ret (t :: rest))
      else Ret (s :: l)
  end.

Fixpoint sort_services (l : list service) : exc (list service) :=
  match l with
  | [] => Ret []
  | s :: l' => sorted <- sort_services l' ;; insert_service s sorted
  end.

(** The body of the [try] block, once the file is known to exist. *)
Definition load_services (f : compose_file) : exc (list service) :=
  match loaded f with
  | None => Raise LoadError
  | Some data =>
      if negb (truthy data) then Ret []
      else
        match data with
        | YDict d =>
            match dict_get d (u "services") with
            | None => Ret []
            | Some (YDict items) =>
                services <- each_service (raw f) items ;;
                sort_services services
            | Some _ => Raise AttributeError       (* no [items] *)
            end
        | YStr s => if contains (u "services") s then Raise TypeError else Ret []
        | YList l | YSet l =>
            if existsb (fun x => match x with YStr s => Str.eqb s (u "services") | _ => false end) l
            then Raise TypeError
            else Ret []
        | _ => Raise TypeError                     (* [in] on a scalar *)
        end
  end.

(** [parse_compose_file(compose_path)]: the list it returns.  [None]
    is a path that does not exist. *)
Definition parse_compose_file (compose_path : option compose_file) : list service :=
  match compose_path with
  | None => []
  | Some f => try_except (load_services f) []
  end.

(** What [parse_compose_file] prints before it returns: the line of its
    [except] clause.  [shown] is the path in the message. *)
Definition parse_compose_file_prints (shown : path) (compose_path : option compose_file)
    : list printed :=
  match compose_path with
  | None => []
  | Some f =>
      match load_services f with
      | Ret _ => []
      | Raise e => [ErrorParsing shown e]
      end
  end.

End Parser.

End ComposeParser.

(* ================================================================== *)
(** * The files *)
(* ================================================================== *)

Import ComposeParser.

(** An entry of the directory [stacks/]; [compose_yaml] is the file
    [compose.yaml] inside it, when the entry is a directory that has one. *)
Record dir_entry := {
  entry_name : str;
  is_dir : bool;
  compose_yaml : option compose_file
}.

Inductive node :=
| Absent
| NotADirectory
| Directory (entries : list dir_entry).

(** What the script sees of the repository: [README_PATH] (its text when
    it exists), [ROOT_COMPOSE] and [STACKS_DIR].  A README that exists
    is a file that opens and decodes: its text is what [read] returns
    for it, and after a write it is the text given to [write]. *)
Record world := {
  readme : option str;
  root_compose : option compose_file;
  stacks_dir : node
}.

(** The files once [README_PATH] holds [content]. *)
Definition set_readme (content : str) (w : world) : world :=
  {| readme := Some content;
     root_compose := root_compose w;
     stacks_dir := stacks_dir w |}.

(** Code that may raise and may write: the files are threaded through,
    and an exception leaves them as they were when it was raised.
    Failures of the operating system (a file that cannot be opened, a
    full disk, a closed output) are not modelled. *)
Definition io (A : Type) := world -> exc A * world.

Definition io_ret {A} (a : A) : io A := fun w => (Ret a, w).

Definition io_bind {A B} (m : io A) (f : A -> io B) : io B :=
  fun w =>
    match m w with
    | (Ret a, w') => f a w'
    | (Raise e, w') => (Raise e, w')
    end.

Definition io_lift {A} (m : exc A) : io A := fun w => (m, w).

Notation "x <~ m ;; k" := (io_bind m (fun x => k))
  (at level 61, m at next level, right associativity).

(* ================================================================== *)
(** * class ReadmeUpdater *)
(* ================================================================== *)

Module ReadmeUpdater.

(** [self.stacks]: a dict from stack key to services, in insertion order. *)
Definition stacks_t := list (str * list service).

(** [self.stack_headers]: [(display_name, stack_key)] in document order. *)
Definition headers_t := list (str * str).

Fixpoint dict_set {V} (d : list (str * V)) (k : str) (v : V) : list (str * V) :=
  match d with
  | [] => [(k, v)]
  | (k', v') :: d' => if Str.eqb k' k then (k, v) :: d' else (k', v') :: dict_set d' k v
  end.

Fixpoint dict_lookup {V} (d : list (str * V)) (k : str) : option V :=
  match d with
  | [] => None
  | (k', v) :: d' => if Str.eqb k' k then Some v else dict_lookup d' k
  end.

Definition mem (x : str) (l : list str) : bool := existsb (Str.eqb x) l.

(** [sorted(l)] for strings. *)
Fixpoint insert_sorted (x : str) (l : list str) : list str :=
  match l with
  | [] => [x]
  | y :: l' => if Str.ltb y x then y :: insert_sorted x l' else x :: l
  end.

Definition sorted (l : list str) : list str := fold_right insert_sorted [] l.

(** [set(l)], as the list of its elements without repetition. *)
Fixpoint set_of (l : list str) : list str :=
  match l with
  | [] => []
  | x :: l' => if mem x l' then set_of l' else x :: set_of l'
  end.

(** [a - b] for two sets. *)
Definition difference (a b : list str) : list str :=
  filter (fun x => negb (mem x b)) a.

(** The section heading, ["## 🏗️ Stack/Service Lineup"]. *)
Definition HEADING : str := Eval vm_compute in u "## 🏗️ Stack/Service Lineup".

(** [# Map common variations] (lines 176 to 188). *)
Definition map_variations (stack_key : str) : str :=
  if contains (u "root") stack_key then u "root"
  else if mem stack_key [u "app"; u "apps"; u "application"; u "applications"] then u "app"
  else if mem stack_key [u "core"; u "infrastructure"; u "infra"] then u "core"
  else if mem stack_key [u "data"; u "database"; u "storage"] then u "data"
  else if mem stack_key [u "log"; u "logs"; u "logging"; u "monitoring"] then u "log"
  else if mem stack_key [u "media"; u "movies"; u "tv"; u "entertainment"] then u "media"
  else stack_key.

Section Updater.
Variable U : runtime.

(** [r"## 🏗️ Stack/Service Lineup.*?(?=\n## |\Z)"], with DOTALL. *)
Definition section_pattern : regex :=
  seq [ Lit false HEADING; Rep false dotall;
        Ahead (Alt (Lit false (NL :: u "## ")) Eoz) ].

(** [r"###\s+(.+?)$"], with MULTILINE. *)
Definition header_pattern : regex :=
  seq [ Lit false (u "###"); Cls (is_space U); Rep true (is_space U);
        Grp 1 (Cat (Cls dot) (Rep false dot)); Eol ].

(** [r"[^\w\s-]"] and [r"\s+"]. *)
Definition special_pattern : regex :=
  Cls (fun c => negb (is_word U c || is_space U c || (c =? HYPHEN))).

Definition spaces_pattern : regex :=
  Cat (Cls (is_space U)) (Rep true (is_space U)).

(** The stack key of a display name: special characters removed,
    lower case, white space turned into hyphens, then the common
    variations mapped (lines 171 to 188). *)
Definition stack_key_of (display_name : str) : str :=
  let stack_key := lower U (strip U (sub_plain U special_pattern [] display_name)) in
  let stack_key := sub_plain U spaces_pattern (u "-") stack_key in
  map_variations stack_key.

Definition header_of (m : str * groups) : str * str :=
  let display_name := strip U (grp 1 (snd m)) in
  (display_name, stack_key_of display_name).

Definition NO_SECTION : str :=
  Eval vm_compute in
  u "Error: '## 🏗️ Stack/Service Lineup' section not found in README.md"
  ++ NL :: u "Please add this section to define your stack structure.".

Definition NO_HEADERS : str :=
  Eval vm_compute in
  u "Error: No stack headers (###) found in the '## 🏗️ Stack/Service Lineup' section"
  ++ NL :: u "Please add stack headers like '### � Root' to define your stacks.".

Definition parse_existing_stack_headers (content : str) : exc headers_t :=
  match search U section_pattern content with
  | None => Raise (ValueError NO_SECTION)
  | Some section_match =>
      let section_content := f_text section_match in
      let headers := map header_of (finditer U header_pattern section_content) in
      match headers with
      | [] => Raise (ValueError NO_HEADERS)
      | _ => Ret headers
      end
  end.

(** The loop of [collect_services] over [sorted(STACKS_DIR.iterdir())]. *)
Fixpoint insert_entry (e : dir_entry) (l : list dir_entry) : list dir_entry :=
  match l with
  | [] => [e]
  | f :: l' =>
      if Str.ltb (entry_name f) (entry_name e) then f :: insert_entry e l' else e :: l
  end.

Definition sorted_entries (l : list dir_entry) : list dir_entry :=
  fold_right insert_entry [] l.

Fixpoint collect_stacks (entries : list dir_entry) (stacks : stacks_t) : exc stacks_t :=
  match entries with
  | [] => Ret stacks
  | stack_dir :: rest =>
      if negb (is_dir stack_dir) then collect_stacks rest stacks
      else
        _ <- print_lines U
               (parse_compose_file_prints U (StackCompose (entry_name stack_dir))
                  (compose_yaml stack_dir)) ;;
        match parse_compose_file U (compose_yaml stack_dir) with
        | [] => collect_stacks rest stacks
        | services => collect_stacks rest (dict_set stacks (entry_name stack_dir) services)
        end
  end.

(** [collect_services]: the value of [self.stacks] afterwards.  Listing
    a [STACKS_DIR] that is not a directory raises. *)
Definition collect_services (w : world) : exc stacks_t :=
  _ <- print_lines U (parse_compose_file_prints U RootCompose (root_compose w)) ;;
  let stacks :=
    match parse_compose_file U (root_compose w) with
    | [] => []
    | services => dict_set [] (u "root") services
    end in
  match stacks_dir w with
  | Absent => Ret stacks
  | NotADirectory => Raise LoadError
  | Directory entries => collect_stacks (sorted_entries entries) stacks
  end.

(** [validate_stacks]: the result and what is printed. *)
Definition validate_stacks (stack_headers : headers_t) (stacks : stacks_t)
    : bool * list printed :=
  let readme_stacks := set_of (map snd stack_headers) in
  let actual_stacks := set_of (map fst stacks) in
  let missing_in_readme := difference actual_stacks readme_stacks in
  let missing_in_filesystem := difference readme_stacks actual_stacks in
  match missing_in_readme, missing_in_filesystem with
  | [], [] => (true, [])
  | _, _ =>
      (false,
       [Line (NL :: u "✗ Stack mismatch detected!")]
       ++ match missing_in_filesystem with
          | [] => []
          | _ =>
              Line (NL :: u "Stacks in README but missing compose files or services:")
              :: map (fun stack =>
                        ExpectedAt stack
                          (if negb (Str.eqb stack (u "root")) then StackCompose stack
                           else RootCompose))
                   (sorted missing_in_filesystem)
          end
       ++ match missing_in_readme with
          | [] => []
          | _ =>
              Line (NL :: u "Stacks with services but missing in README:")
              :: flat_map (fun stack =>
                        [ Line (u "  - " ++ stack);
                          Line (u "    Add a section like '### " ++ capitalize U stack
                                ++ u "' to README.md") ])
                   (sorted missing_in_readme)
          end)
  end.

(** [generate_markdown_table]: one paragraph for the services of a stack. *)
Definition capitalized (name : pyname) : str :=
  match name with
  | NStr s => capitalize U s
  | NBytes b => bytes_repr (bytes_capitalize b)
  end.

Definition service_entry (s : service) : str :=
  let '(service_name, description, _) := s in
  let service_display := u "**" ++ capitalized service_name ++ u "**" in
  if truthy description
  then service_display ++ u " - " ++ to_str U description
  else service_display.

Definition generate_markdown_table (services : list service) : str :=
  join (u " • ") (map service_entry services).

Definition PLACEHOLDER : str := Eval vm_compute in u "_No services defined_".

Definition INTRO : str :=
  Eval vm_compute in
  u "This repository is structured for use with [Dockge](https://dockge.kuma.pet/), offering a clean UI to deploy and maintain Compose stacks:".

(** The lines [generate_service_section] appends for one header. *)
Definition header_lines (stacks : stacks_t) (h : str * str) : list str :=
  let '(display_name, stack_key) := h in
  let services :=
    match dict_lookup stacks stack_key with
    | Some l => l
    | None => []
    end in
  [ u "### " ++ display_name; [];
    match services with
    | [] => PLACEHOLDER
    | _ => generate_markdown_table services
    end;
    [] ].

(** The list [lines] of [generate_service_section] before it is joined. *)
Definition section_lines (stack_headers : headers_t) (stacks : stacks_t) : list str :=
  [HEADING; []; INTRO; []] ++ flat_map (header_lines stacks) stack_headers.

Definition generate_service_section (stack_headers : headers_t) (stacks : stacks_t) : str :=
  join [NL] (section_lines stack_headers stacks).

(** [r"\[([^\]]+)\]\(([^\)]+)\)"] *)
Definition link_pattern : regex :=
  seq [ Lit false (u "[");
        Grp 1 (Cat (Cls (other_than 93)) (Rep true (other_than 93)));
        Lit false (u "]"); Lit false (u "(");
        Grp 2 (Cat (Cls (other_than 41)) (Rep true (other_than 41)));
        Lit false (u ")") ].

(** [manual_links]: from the normalised label to [(link_text, link_url)]. *)
Definition links_t := list (str * (str * str)).

Definition link_key (link_text : str) : str :=
  remove_char 95 (remove_char 45 (remove_char 32 (lower U link_text))).

Definition add_link (manual_links : links_t) (m : str * groups) : links_t :=
  let link_text := strip U (grp 1 (snd m)) in
  let link_url := strip U (grp 2 (snd m)) in
  dict_set manual_links (link_key link_text) (link_text, link_url).

Definition extract_links (old_section : str) : links_t :=
  fold_left add_link (finditer U link_pattern old_section) [].

(** [rf"\*\*{re.escape(text)}\*\*"], used with IGNORECASE. *)
Definition bold_pattern (text : str) : regex :=
  seq [ Lit true (u "**"); Lit true text; Lit true (u "**") ].

(** The inner loop: the first of [patterns] found in [result] is
    substituted everywhere, and the loop stops. *)
Fixpoint apply_first (patterns : list regex) (template result : str) : exc str :=
  match patterns with
  | [] => Ret result
  | pattern :: rest =>
      match search U pattern result with
      | Some _ => Re.sub U pattern template result
      | None => apply_first rest template result
      end
  end.

Definition apply_link (result : str) (entry : str * (str * str)) : exc str :=
  let '(_, (link_text, link_url)) := entry in
  let patterns :=
    [ bold_pattern link_text;
      bold_pattern (lower U link_text);
      bold_pattern (capitalize U link_text);
      bold_pattern (title U link_text) ] in
  apply_first patterns (u "[**" ++ link_text ++ u "**](" ++ link_url ++ u ")") result.

Fixpoint apply_links (manual_links : links_t) (result : str) : exc str :=
  match manual_links with
  | [] => Ret result
  | entry :: rest =>
      result' <- apply_link result entry ;;
      apply_links rest result'
  end.

Definition preserve_manual_enhancements (old_section new_section : str) : exc str :=
  apply_links (extract_links old_section) new_section.

(** [[
      with open(README_PATH, "w") as f:
          f.write(updated_content)
    ]]
    Opening for writing empties the file.  [write] encodes the whole
    text first: when a character has no encoding it raises, and the
    file stays empty. *)
Definition write_readme (content : str) : io unit :=
  fun w =>
    let emptied := set_readme [] w in
    if forallb (encodes U) content
    then (Ret tt, set_readme content emptied)
    else (Raise UnicodeEncodeError, emptied).

Definition NOT_FOUND_WARNING : str :=
  Eval vm_compute in u "Warning: Service lineup section not found, appending to end".

(** The text [update_readme] writes (lines 359 to 377), from the
    headers, [self.stacks] and the text it has read. *)
Definition updated_content (stack_headers : headers_t) (stacks : stacks_t)
    (content : str) : exc str :=
  let new_section := generate_service_section stack_headers stacks in
  match search U section_pattern content with
  | Some old_match =>
      new_section' <- preserve_manual_enhancements (f_text old_match) new_section ;;
      Re.sub U section_pattern new_section' content
  | None =>
      _ <- print_line U (Line NOT_FOUND_WARNING) ;;
      Ret (rstrip U content ++ [NL; NL] ++ new_section ++ [NL])
  end.

(** The three lines [update_readme] prints after the write. *)
Definition summary (stack_headers : headers_t) (stacks : stacks_t) : list printed :=
  [ Line (u "✓ Updated README.md with "
          ++ of_nat (list_sum (map (fun kv => length (snd kv)) stacks))
          ++ u " services");
    Line (u "  Stack headers from README: " ++ join (u ", ") (map snd stack_headers));
    Line (u "  Stacks with services: " ++ join (u ", ") (sorted (map fst stacks))) ].

(** [update_readme], given [self.stacks]. *)
Definition update_readme (stacks : stacks_t) : io bool :=
  fun w =>
    match readme w with
    | None => (_ <- print_line U ReadmeNotFound ;; Ret false, w)
    | Some content =>
        match parse_existing_stack_headers content with
        | Raise (ValueError msg) => (_ <- print_line U (Line (NL :: msg)) ;; Ret false, w)
        | Raise e => (Raise e, w)
        | Ret stack_headers =>
            let checked := validate_stacks stack_headers stacks in
            (_ <~ io_lift (print_lines U (snd checked)) ;;
             if negb (fst checked) then io_ret false
             else
               updated <~ io_lift (updated_content stack_headers stacks content) ;;
               _ <~ write_readme updated ;;
               _ <~ io_lift (print_lines U (summary stack_headers stacks)) ;;
               io_ret true) w
        end
    end.

(** [main] up to the call of [update_readme] (lines 391 to 403). *)
Definition collect_and_report (w : world) : exc stacks_t :=
  _ <- print_lines U
         [ Line (u "Nexus README Updater");
           Line (repeat 61 50);
           Line (u "Collecting services from compose files...") ] ;;
  stacks <- collect_services w ;;
  _ <- print_lines U
         (Line (u "Found " ++ of_nat (length stacks) ++ u " stacks:")
          :: map (fun kv => Line (u "  - " ++ fst kv ++ u ": "
                                  ++ of_nat (length (snd kv)) ++ u " services"))
               stacks
          ++ [ Line (NL :: u "Updating README.md...") ]) ;;
  Ret stacks.

Definition UPDATED : printed :=
  Eval vm_compute in Line (NL :: u "✓ README.md updated successfully!").

Definition FAILED : printed :=
  Eval vm_compute in Line (NL :: u "✗ Failed to update README.md").

(** [main]: the value it returns. *)
Definition main : io Z :=
  stacks <~ (fun w => (collect_and_report w, w)) ;;
  success <~ update_readme stacks ;;
  if success
  then (_ <~ io_lift (print_line U UPDATED) ;; io_ret 0%Z)
  else (_ <~ io_lift (print_line U FAILED) ;; io_ret 1%Z).

(** [exit(main())]: the exit status of the process and the files it
    leaves.  An exception that reaches the top level ends the process
    with status 1. *)
Definition run (w : world) : Z * world :=
  match main w with
  | (Ret status, w') => (status, w')
  | (Raise _, w') => (1%Z, w')
  end.

End Updater.

End ReadmeUpdater.

Import ReadmeUpdater.

(* ================================================================== *)
(** * Inputs of the examples *)
(* ================================================================== *)

(** The entries of the Unicode database the examples use.  U+0130
    (capital I with dot above) is a cased letter whose lower-case
    mapping is "i" followed by U+0307 (combining dot above), a mark that
    is not alphanumeric.  The other code points from 128 up are taken as
    symbols without case, which is what the pictographs of the README
    headings are.  Text files are encoded in UTF-8, which has every
    code point but the surrogates (U+D800 to U+DFFF), and the standard
    output takes every line.  No example has a [bytes] name with a byte
    outside [[A-Za-z0-9_]]. *)
Definition unicode_excerpt : runtime :=
  {| u_alnum := fun c => c =? 304;
     u_space := fun _ => false;
     u_lower := fun c => if c =? 304 then [105; 775] else [c];
     u_title := fun c => [c];
     u_cased := fun c => c =? 304;
     u_fold_eq := fun _ _ => false;
     container_repr := fun _ => u "[...]";
     bytes_service_pattern := fun _ => None;
     bytes_comment_pattern := fun _ => None;
     encodes := fun c => negb ((55296 <=? c) && (c <=? 57343));
     console := fun _ => true |}.

(** A Compose file with an active service [plex] and, further down, a
    comment that starts like its declaration. *)
Definition plex_service : yaml :=
  YDict [ (YStr (u "image"), YStr (u "plexinc/pms-docker")) ].

Definition plex_data : yaml :=
  YDict [ (YStr (u "services"), YDict [ (YStr (u "plex"), plex_service) ]) ].

Definition plex_text : str :=
  u "services:" ++ NL :: u "  plex:" ++ NL :: u "    image: plexinc/pms-docker" ++ [NL].

Definition plex_file : compose_file :=
  {| raw := plex_text; loaded := Some plex_data |}.

Definition plex_file_with_note : compose_file :=
  {| raw := plex_text ++ u "# plex: media server" ++ [NL]; loaded := Some plex_data |}.

Definition plex_file_disabled : compose_file :=
  {| raw := u "services:" ++ NL :: u "  # plex:" ++ NL :: u "  plex:" ++ NL
            :: u "    image: plexinc/pms-docker" ++ [NL];
     loaded := Some plex_data |}.

(** The service has a non-empty [homepage.description] label, of value
    [desc]: either in a mapping of labels, or as the first string
    ["homepage.description:<value>"] of a list of labels. *)
Inductive label_description (U : runtime) : yaml -> yaml -> Prop :=
| label_in_mapping (d : list (yaml * yaml)) (desc : yaml) :
    dict_get d (u "homepage.description") = Some desc ->
    truthy desc = true ->
    label_description U (YDict d) desc
| label_in_list (before after : list yaml) (value : str) :
    (forall s, In (YStr s) before -> startswith s (u "homepage.description:") = false) ->
    strip U value <> [] ->
    label_description U
      (YList (before ++ YStr (u "homepage.description:" ++ value) :: after))
      (YStr (strip U value)).

(** The text of the file gives the service a description in the
    comment above its declaration. *)
Definition has_comment (U : runtime) (name : pyname) (content : str) : Prop :=
  match name with
  | NStr s => comment_description U s content <> []
  | NBytes _ =>
      exists pattern,
        comment_pattern_of U name = Ret pattern
        /\ comment_found_by U pattern content <> []
  end.

(** A service with a description label, in the two encodings, under a
    comment in the text of the file. *)
Definition whoami_text : str :=
  u "services:" ++ NL :: u "  # Tiny test server" ++ NL :: u "  whoami:" ++ NL
  :: u "    image: traefik/whoami" ++ [NL].

Definition whoami_mapping : list (yaml * yaml) :=
  [ (YStr (u "image"), YStr (u "traefik/whoami"));
    (YStr (u "labels"),
     YDict [ (YStr (u "traefik.enable"), YBool true);
             (YStr (u "homepage.description"), YStr (u "Identity service")) ]) ].

Definition whoami_list : list (yaml * yaml) :=
  [ (YStr (u "image"), YStr (u "traefik/whoami"));
    (YStr (u "labels"),
     YList [ YStr (u "traefik.enable=true");
             YStr (u "homepage.description: Identity service") ]) ].

(** A link added by hand around a service name, the section rendered
    for the same service, and the section the first run writes. *)
Definition plex_previous : str := u "[Plex](https://plex.example.com) - Media server".
Definition plex_rendered : str := u "**Plex** - Media server".
Definition plex_merged : str := u "[**Plex**](https://plex.example.com) - Media server".

(** The text at [s] is a line break followed by a level-2 heading
    marker; or by a marker of level 1 or 2, the headings "of the same or
    higher rank" as the section's. *)
Definition at_h2 (s : str) : bool := startswith s (NL :: u "## ").

Definition at_top_heading (s : str) : bool :=
  startswith s (NL :: u "## ") || startswith s (NL :: u "# ").

(** The match [m] found in [content] is the span of the section: it
    starts with the first occurrence of the heading text and runs up to
    the first place where [stop] holds, or to the end of the document. *)
Definition span_ends_at (stop : str -> bool) (content : str) (m : found) : Prop :=
  content = f_pre m ++ f_text m ++ f_post m
  /\ (forall p1 p2, f_pre m = p1 ++ p2 -> p2 <> [] ->
        startswith (p2 ++ f_text m ++ f_post m) HEADING = false)
  /\ exists body,
       f_text m = HEADING ++ body
       /\ (f_post m = [] \/ stop (f_post m) = true)
       /\ (forall b1 b2, body = b1 ++ b2 -> b2 <> [] -> stop (b2 ++ f_post m) = false).

(** Where the lazy [.*?(?=\n## |\Z)] stops in [s]. *)
Fixpoint skip_to_end (s : str) : str :=
  match s with
  | [] => []
  | _ :: t => if at_h2 s then s else skip_to_end t
  end.

(** A README whose section is followed by a level-1 heading. *)
Definition readme_with_h1 : str :=
  u "# Nexus" ++ [NL; NL] ++ HEADING ++ [NL; NL] ++ u "### 🧩 Root" ++ [NL; NL]
  ++ u "# Usage" ++ [NL; NL] ++ u "### Install" ++ [NL; NL]
  ++ u "## License" ++ [NL].

(** The characters the first step of the normalisation keeps. *)
Definition kept (U : runtime) (c : N) : bool :=
  is_word U c || is_space U c || (c =? HYPHEN).

(** A character the normalisation leaves alone once it is in a key:
    white space (which becomes a hyphen), or a word character or hyphen
    that lower-casing does not change. *)
Definition settled (U : runtime) (c : N) : bool :=
  is_space U c || (kept U c && Str.eqb (lower1 U c) [c]).

(** A character of a display name is case-stable when it is removed by
    the first step, or lowered to settled characters only. *)
Definition case_stable (U : runtime) (c : N) : bool :=
  negb (kept U c) || forallb (settled U) (lower1 U c).

(** The code points below 128. *)
Definition ascii_table : list N := map N.of_nat (List.seq 0 128).

(** The key of a display name before the variations are mapped. *)
Definition plain_key (U : runtime) (display_name : str) : str :=
  sub_plain U (spaces_pattern U) (u "-")
    (lower U (strip U (sub_plain U (special_pattern U) [] display_name))).

(** A character of a key: not white space, kept by the first step and
    unchanged by lower-casing. *)
Definition key_char (U : runtime) (c : N) : Prop :=
  is_space U c = false /\ kept U c = true /\ lower1 U c = [c].

(** The stacks with the [url] of every service forgotten. *)
Definition without_url (s : service) : service :=
  (service_name s, description s, None).

Definition without_urls (stacks : stacks_t) : stacks_t :=
  map (fun kv => (fst kv, map without_url (snd kv))) stacks.

(** Two stacks on disk and two headers in the README, for the
    consistency check. *)
Definition one_service (name : str) : list service := [ (NStr name, YStr [], None) ].

Definition disk_root_core : stacks_t :=
  [ (u "root", one_service (u "traefik")); (u "core", one_service (u "authelia")) ].

Definition headers_root_media : headers_t :=
  [ (u "🧩 Root", u "root"); (u "🎬 Media", u "media") ].

(** Two stacks that differ in the URLs of their services only. *)
Definition stacks_with_url : stacks_t :=
  [ (u "root", [ (NStr (u "whoami"), YStr (u "Identity service"),
                  Some (u "https://whoami.DOMAIN")) ]) ].

Definition stacks_without_url : stacks_t :=
  [ (u "root", [ (NStr (u "whoami"), YStr (u "Identity service"), None) ]) ].

(** A repository with one root service and a README that has the
    section with one header. *)
Definition whoami_file : compose_file :=
  {| raw := whoami_text;
     loaded := Some (YDict [ (YStr (u "services"),
                              YDict [ (YStr (u "whoami"), YDict whoami_mapping) ]) ]) |}.

Definition small_readme : str :=
  u "# Nexus" ++ [NL; NL] ++ HEADING ++ [NL; NL] ++ u "### 🧩 Root" ++ [NL; NL]
  ++ u "## License" ++ [NL].

Definition small_world : world :=
  {| readme := Some small_readme;
     root_compose := Some whoami_file;
     stacks_dir := Directory [] |}.

Definition small_readme_updated : str :=
  u "# Nexus" ++ [NL; NL] ++ HEADING ++ [NL; NL] ++ INTRO ++ [NL; NL]
  ++ u "### 🧩 Root" ++ [NL; NL] ++ u "**Whoami** - Identity service" ++ [NL]
  ++ NL :: u "## License" ++ [NL].

(** The same repository with a stack on disk that the README lacks. *)
Definition mismatched_world : world :=
  {| readme := Some small_readme;
     root_compose := Some whoami_file;
     stacks_dir :=
       Directory [ {| entry_name := u "media"; is_dir := true;
                      compose_yaml := Some plex_file |} ] |}.

(** The same repository when the description of the service has the
    two surrogates of a pair, as the YAML scalar ["\ud83c\udfac"]
    loads. *)
Definition surrogate_file : compose_file :=
  {| raw := whoami_text;
     loaded :=
       Some (YDict [ (YStr (u "services"),
                      YDict [ (YStr (u "whoami"),
                               YDict [ (YStr (u "labels"),
                                        YDict [ (YStr (u "homepage.description"),
                                                 YStr [55356; 57260]) ]) ]) ]) ]) |}.

Definition surrogate_world : world :=
  {| readme := Some small_readme;
     root_compose := Some surrogate_file;
     stacks_dir := Directory [] |}.

(** Every step of a run before the write succeeded: the services were
    collected and reported, the README was read, its headers were
    extracted, the check passed and the text to write, [updated], was
    computed. *)
Definition steps_succeeded (U : runtime) (w : world) (stacks : stacks_t)
    (stack_headers : headers_t) (updated : str) : Prop :=
  collect_and_report U w = Ret stacks
  /\ exists content,
       readme w = Some content
       /\ parse_existing_stack_headers U content = Ret stack_headers
       /\ fst (validate_stacks U stack_headers stacks) = true
       /\ updated_content U stack_headers stacks content = Ret updated.

(** The status of the process, from what [main] returns or raises. *)
Definition status_of (r : exc Z) : Z :=
  match r with
  | Ret status => status
  | Raise _ => 1%Z
  end.

(** The span the search finds in [readme_with_h1]. *)
Definition span_with_h1 : found :=
  {| f_pre := u "# Nexus" ++ [NL; NL];
     f_text := HEADING
               ++ ([NL; NL] ++ u "### 🧩 Root" ++ [NL])
               ++ (NL :: u "# Usage" ++ [NL; NL] ++ u "### Install" ++ [NL]);
     f_groups := [];
     f_post := NL :: u "## License" ++ [NL] |}.

(** Where an entry of [self.stacks] comes from: the root Compose file,
    under the key "root", or the [compose.yaml] of a directory of
    [stacks/], under the name of the directory. *)
Definition from_disk (U : runtime) (w : world) (entries : list dir_entry)
    (kv : str * list service) : Prop :=
  snd kv <> []
  /\ ((fst kv = u "root" /\ snd kv = parse_compose_file U (root_compose w))
      \/ exists e, In e entries /\ is_dir e = true /\ entry_name e = fst kv
                   /\ snd kv = parse_compose_file U (compose_yaml e)).

(** The entries of [STACKS_DIR] when it is a directory. *)
Definition stack_entries (w : world) : list dir_entry :=
  match stacks_dir w with
  | Directory l => l
  | _ => []
  end.

(** [rule] is the text of a label of the service that
    [extract_url] takes for a routing rule: the value of a key of the
    mapping of labels, or a whole string of the list of labels. *)
Definition router_rule (service_data : list (yaml * yaml)) (rule : str) : Prop :=
  (exists labels key,
     dict_get service_data (u "labels") = Some (YDict labels)
     /\ In (YStr key, YStr rule) labels /\ is_router_rule key = true)
  \/ (exists labels,
        dict_get service_data (u "labels") = Some (YList labels)
        /\ In (YStr rule) labels /\ is_router_rule rule = true).

(** A Compose file in which the key of one service is a number. *)
Definition numbered_file : compose_file :=
  {| raw := u "services:" ++ NL :: u "  plex:" ++ NL :: u "    image: plexinc/pms-docker"
            ++ NL :: u "  8080:" ++ NL :: u "    image: nginx" ++ [NL];
     loaded :=
       Some (YDict [ (YStr (u "services"),
                      YDict [ (YStr (u "plex"), plex_service);
                              (YInt 8080, YDict [ (YStr (u "image"), YStr (u "nginx")) ]) ]) ]) |}.

(** A Compose file in which the key of the service is a [!!binary]
    scalar, which loads as the [bytes] [b"plex"]. *)
Definition binary_file : compose_file :=
  {| raw := u "services:" ++ NL :: u "  ? !!binary cGxleA==" ++ NL
            :: u "  : image: plexinc/pms-docker" ++ [NL];
     loaded :=
       Some (YDict [ (YStr (u "services"),
                      YDict [ (YBytes (u "plex"), plex_service) ]) ]) |}.

(** A service routed by Traefik, with labels as a mapping. *)
Definition routed_service : list (yaml * yaml) :=
  [ (YStr (u "image"), YStr (u "traefik/whoami"));
    (YStr (u "labels"),
     YDict [ (YStr (u "traefik.enable"), YBool true);
             (YStr (u "traefik.http.routers.whoami.rule"),
              YStr (u "Host(`whoami.${DOMAIN:?err}`)")) ]) ].

(** [s] does not come after [t] in the order of the sort: the
    lower-cased name of [t] compares with that of [s] and is not
    smaller. *)
Definition not_after (U : runtime) (s t : service) : Prop :=
  name_ltb (sort_key U t) (sort_key U s) = Ret false.

(** A Compose file with three services, declared out of order. *)
Definition three_services_file : compose_file :=
  {| raw := u "services:" ++ [NL];
     loaded :=
       Some (YDict [ (YStr (u "services"),
                      YDict [ (YStr (u "plex"), YDict []);
                              (YStr (u "Authelia"), YDict []);
                              (YStr (u "bazarr"), YDict []) ]) ]) |}.

(** An ASCII letter that is not a known escape of a replacement
    template ([\a \b \f \n \r \t \v]) nor the [g] of a group reference:
    after a backslash it is a "bad escape". *)
Definition bad_escape_letter (c : N) : bool :=
  (ascii_upper c || ascii_lower c)
  && negb (existsb (N.eqb c) [97; 98; 102; 110; 114; 116; 118; 103]).

(** A repository whose only service has a description with a backslash
    followed by a letter. *)
Definition backup_file : compose_file :=
  {| raw := u "services:" ++ [NL];
     loaded :=
       Some (YDict [ (YStr (u "services"),
                      YDict [ (YStr (u "backup"),
                               YDict [ (YStr (u "labels"),
                                        YDict [ (YStr (u "homepage.description"),
                                                 YStr (u "Copies to D:\data")) ]) ]) ]) ]) |}.

Definition backup_readme : str := HEADING ++ [NL; NL] ++ u "### Root" ++ [NL].

Definition backup_world : world :=
  {| readme := Some backup_readme;
     root_compose := Some backup_file;
     stacks_dir := Absent |}.

(** The text does not start with white space. *)
Definition no_leading_space (U : runtime) (s : str) : Prop :=
  match s with
  | [] => True
  | c :: _ => is_space U c = false
  end.

(** A service declared under a comment that is a directive. *)
Definition directive_text : str :=
  u "services:" ++ NL :: u "  # !include common.yaml" ++ NL :: u "  whoami:" ++ NL
  :: u "    image: traefik/whoami" ++ [NL].

Definition bullet_text : str :=
  u "services:" ++ NL :: u "  # -   Tiny test server  " ++ NL :: u "  whoami:" ++ NL
  :: u "    image: traefik/whoami" ++ [NL].

(* ================================================================== *)
(** * Lemmas on strings and on the matcher *)
(* ================================================================== *)

Lemma eqb_eq (a b : str) : Str.eqb a b = true <-> a = b.
Proof.
  unfold Str.eqb. destruct (list_eq_dec N.eq_dec a b); split; congruence.
Qed.

Lemma eqb_refl (a : str) : Str.eqb a a = true.
Proof. apply eqb_eq. reflexivity. Qed.

Lemma eqb_neq (a b : str) : Str.eqb a b = false <-> a <> b.
Proof.
  unfold Str.eqb. destruct (list_eq_dec N.eq_dec a b); split; congruence.
Qed.

Lemma strip_prefix_app (p s : str) : strip_prefix p (p ++ s) = Some s.
Proof.
  induction p as [|x p IH]; simpl; [reflexivity|].
  rewrite N.eqb_refl. exact IH.
Qed.

Lemma strip_prefix_inv (p s t : str) : strip_prefix p s = Some t -> s = p ++ t.
Proof.
  revert s. induction p as [|x p IH]; simpl; intros s H.
  - congruence.
  - destruct s as [|y s]; [discriminate|].
    destruct (N.eqb_spec x y); [|discriminate].
    subst. f_equal. auto.
Qed.

Lemma startswith_app (p s : str) : startswith (p ++ s) p = true.
Proof. unfold startswith. rewrite strip_prefix_app. reflexivity. Qed.

Lemma startswith_inv (p s : str) : startswith s p = true -> exists t, s = p ++ t.
Proof.
  unfold startswith. destruct (strip_prefix p s) eqn:E; [|discriminate].
  intros _. exists s0. apply strip_prefix_inv. exact E.
Qed.

Section MatcherFacts.
Variable U : runtime.

(** The character before the position reached after [pre]. *)
Definition last_char (prev : option N) (pre : str) : option N :=
  fold_left (fun _ c => Some c) pre prev.

Lemma lit_match_app (l s : str) (prev : option N) :
  lit_match U false l (l ++ s) prev = Some (last_char prev l, s).
Proof.
  revert prev. induction l as [|a l IH]; intros prev; simpl; [reflexivity|].
  rewrite N.eqb_refl. apply IH.
Qed.

Lemma lit_match_inv (l s s' : str) (prev prev' : option N) :
  lit_match U false l s prev = Some (prev', s') -> s = l ++ s'.
Proof.
  revert s prev. induction l as [|a l IH]; intros s prev; simpl.
  - congruence.
  - destruct s as [|c s]; [discriminate|].
    destruct (N.eqb_spec a c); [|discriminate].
    intros H. subst. f_equal. eauto.
Qed.

(** A repetition succeeds as soon as its continuation does where the
    repetition starts. *)
Lemma rep_here {A} (greedy : bool) (p : N -> bool) (prev : option N) (s : str)
    (k : option N -> str -> option A) :
  k prev s <> None -> rep greedy p prev s k <> None.
Proof.
  intros H. destruct s as [|c t]; simpl; [exact H|].
  destruct (p c); [|exact H].
  destruct greedy.
  - destruct (rep true p (Some c) t k); [discriminate | exact H].
  - destruct (k prev (c :: t)); [discriminate | contradiction].
Qed.

(** A repetition can pass any run of characters of its class. *)
Lemma rep_pass {A} (greedy : bool) (p : N -> bool) (w s : str)
    (k : option N -> str -> option A) :
  Forall (fun c => p c = true) w ->
  (forall prev, k prev s <> None) ->
  forall prev, rep greedy p prev (w ++ s) k <> None.
Proof.
  intros Hw Hk. induction Hw as [|c w Hc _ IH]; intros prev.
  - apply rep_here, Hk.
  - simpl. rewrite Hc. destruct greedy.
    + specialize (IH (Some c)).
      destruct (rep true p (Some c) (w ++ s) k); [discriminate | contradiction].
    + destruct (k prev (c :: w ++ s)); [discriminate | apply IH].
Qed.

(** [re.search] finds a match as soon as there is one at some position. *)
Lemma search_from_complete (r : regex) (pre s : str) :
  forall prev,
  match_at U r (last_char prev pre) s <> None ->
  search_from U r prev (pre ++ s) <> None.
Proof.
  induction pre as [|c pre IH]; intros prev H; simpl in *.
  - destruct s; simpl; destruct (match_at U r prev _) as [[? ?]|];
      try discriminate; contradiction.
  - destruct (match_at U r prev (c :: pre ++ s)) as [[? ?]|]; [discriminate|].
    specialize (IH (Some c) H).
    destruct (search_from U r (Some c) (pre ++ s)); [discriminate | contradiction].
Qed.

End MatcherFacts.

Section ParserFacts.
Variable U : runtime.

Lemma last_char_line_start (pre : str) :
  pre = [] \/ (exists pre', pre = pre' ++ [NL]) ->
  last_char None pre = None \/ last_char None pre = Some NL.
Proof.
  intros [-> | [pre' ->]]; [left; reflexivity | right].
  unfold last_char. rewrite fold_left_app. reflexivity.
Qed.

Lemma service_pattern_matches (prev : option N) (ws1 ws2 name post : str) :
  prev = None \/ prev = Some NL ->
  Forall (fun c => is_space U c = true) ws1 ->
  Forall (fun c => is_space U c = true) ws2 ->
  match_at U (service_pattern U name) prev
    (ws1 ++ u "#" ++ ws2 ++ name ++ u ":" ++ post) <> None.
Proof.
  intros Hprev H1 H2.
  unfold match_at, service_pattern, seq.
  assert (Hbol : forall (k : option (str * groups)),
             k <> None ->
             match prev with
             | None => k
             | Some c => if c =? NL then k else None
             end <> None).
  { intros k Hk. destruct Hprev as [-> | ->]; [exact Hk|]. rewrite N.eqb_refl. exact Hk. }
  change (u "#") with [35]. change (u ":") with [58].
  cbn [rmatch app]. apply Hbol.
  apply rep_pass; [exact H1|]. intros p1.
  cbn [lit_match]. rewrite N.eqb_refl.
  apply rep_pass; [exact H2|]. intros p2.
  rewrite lit_match_app.
  cbn [lit_match]. rewrite N.eqb_refl. discriminate.
Qed.

(** The text has a line that declares [name] behind a comment marker. *)
Lemma commented_out_line (name pre ws1 ws2 post : str) :
  pre = [] \/ (exists pre', pre = pre' ++ [NL]) ->
  Forall (fun c => is_space U c = true) ws1 ->
  Forall (fun c => is_space U c = true) ws2 ->
  commented_out U name (pre ++ ws1 ++ u "#" ++ ws2 ++ name ++ u ":" ++ post) = true.
Proof.
  intros Hpre H1 H2. unfold commented_out, search.
  pose proof (@search_from_complete U (service_pattern U name) pre
                (ws1 ++ u "#" ++ ws2 ++ name ++ u ":" ++ post) None) as H.
  destruct (search_from U (service_pattern U name) None _); [reflexivity|].
  exfalso. apply H; [|reflexivity].
  apply service_pattern_matches; auto using last_char_line_start.
Qed.

Lemma In_insert_service (s x : service) (l : list service) :
  forall l', insert_service U s l = Ret l' -> In x l' -> x = s \/ In x l.
Proof.
  induction l as [|t l IH]; cbn [insert_service]; intros l' H Hx.
  - injection H as <-. destruct Hx as [<- | []]. auto.
  - destruct (name_ltb (sort_key U t) (sort_key U s)) as [[|]|]; cbn [bind] in H;
      [| |discriminate].
    + destruct (insert_service U s l) as [rest|]; cbn [bind] in H; [|discriminate].
      injection H as <-. destruct Hx as [<- | Hx]; [right; left; reflexivity|].
      destruct (IH rest eq_refl Hx); [auto | right; right; assumption].
    + injection H as <-. destruct Hx as [<- | Hx]; auto.
Qed.

Lemma In_sort_services (x : service) (l : list service) :
  forall l', sort_services U l = Ret l' -> In x l' -> In x l.
Proof.
  induction l as [|s l IH]; cbn [sort_services]; intros l' H Hx.
  - injection H as <-. exact Hx.
  - destruct (sort_services U l) as [sorted|]; cbn [bind] in H; [|discriminate].
    destruct (In_insert_service _ _ _ H Hx) as [-> | Hin]; [left; reflexivity|].
    right. exact (IH sorted eq_refl Hin).
Qed.

(** What [parse_compose_file] returns is what the loop over the
    services returned, sorted. *)
Lemma parse_compose_file_inv (f : compose_file) (s : service) :
  In s (parse_compose_file U (Some f)) ->
  exists d items l,
    loaded f = Some (YDict d)
    /\ dict_get d (u "services") = Some (YDict items)
    /\ each_service U (raw f) items = Ret l
    /\ sort_services U l = Ret (parse_compose_file U (Some f))
    /\ In s l.
Proof.
  unfold parse_compose_file, load_services.
  destruct (loaded f) as [data|]; [|intros []].
  destruct (negb (truthy data)); [intros []|].
  destruct data as [ | | | t | | | l | l | d]; try (intros []).
  - destruct (contains _ _); intros [].
  - destruct (existsb _ _); intros [].
  - destruct (existsb _ _); intros [].
  - destruct (dict_get d (u "services")) as [v|] eqn:Ev; [|intros []].
    destruct v as [ | | | | | | | | items]; try (intros []).
    destruct (each_service U (raw f) items) as [l|] eqn:E; cbn [bind]; [|intros []].
    destruct (sort_services U l) as [sorted|] eqn:Es; cbn [try_except]; [|intros []].
    intros H. exists d, items, l. repeat split; try reflexivity; try assumption.
    exact (In_sort_services _ _ Es H).
Qed.

(** Every service the loop keeps passed the test on commented-out
    declarations. *)
Lemma each_service_kept (content : str) (items : list (yaml * yaml)) :
  forall l, each_service U content items = Ret l ->
  forall s, In s l -> skipped U (service_name s) content = Ret false.
Proof.
  induction items as [|[key data] items IH]; cbn [each_service]; intros l H s Hs.
  - injection H as <-. destruct Hs.
  - destruct data as [ | | | | | | | | d]; eauto.
    destruct (name_of_key key) as [name|]; [|discriminate].
    destruct (skipped U name content) as [[|]|] eqn:E; cbn [bind] in H;
      [eauto | | discriminate].
    destruct (extract_description U d name content); cbn [bind] in H; [|discriminate].
    destruct (extract_url U d (u "DOMAIN")); cbn [bind] in H; [|discriminate].
    destruct (each_service U content items); cbn [bind] in H; [|discriminate].
    injection H as <-. destruct Hs as [<- | Hs]; [exact E | eauto].
Qed.

Lemma parse_compose_file_kept (f : compose_file) (s : service) :
  In s (parse_compose_file U (Some f)) ->
  skipped U (service_name s) (raw f) = Ret false.
Proof.
  intros H. destruct (parse_compose_file_inv f s H) as (d & items & l & _ & _ & E & _ & Hs).
  exact (each_service_kept _ _ E s Hs).
Qed.

End ParserFacts.

(** C5. A service is left out of the parsed list whenever the text of
    the Compose file has a line made of a comment marker, the name of
    the service and a colon (white space allowed before and after the
    marker), whatever the loaded data are. *)
Theorem commented_out_service_not_listed
    (U : runtime) (name pre ws1 ws2 post : str) (data : option yaml) :
  pre = [] \/ (exists pre', pre = pre' ++ [NL]) ->
  Forall (fun c => is_space U c = true) ws1 ->
  Forall (fun c => is_space U c = true) ws2 ->
  post = [] \/ (exists post', post = NL :: post') ->
  ~ In (NStr name)
      (map service_name
         (parse_compose_file U
            (Some {| raw := pre ++ ws1 ++ u "#" ++ ws2 ++ name ++ u ":" ++ post;
                     loaded := data |}))).
Proof.
  intros Hpre H1 H2 _ Hin.
  apply in_map_iff in Hin. destruct Hin as [s [Hname Hs]].
  apply parse_compose_file_kept in Hs. cbn [raw] in Hs.
  rewrite Hname in Hs. cbn [skipped] in Hs.
  rewrite commented_out_line in Hs by assumption. discriminate.
Qed.

Lemma commented_out_service_not_listed_witness :
  ~ In (NStr (u "plex"))
      (map service_name (parse_compose_file unicode_excerpt (Some plex_file_disabled)))
  /\ parse_compose_file unicode_excerpt (Some plex_file) <> [].
Proof.
  split.
  - apply (@commented_out_service_not_listed unicode_excerpt (u "plex")
             (u "services:" ++ [NL]) (u "  ") (u " ")
             (NL :: u "  plex:" ++ NL :: u "    image: plexinc/pms-docker" ++ [NL])
             (Some plex_data)).
    + right. exists (u "services:"). reflexivity.
    + repeat constructor.
    + repeat constructor.
    + right. eexists. reflexivity.
  - vm_compute. discriminate.
Defined.

(** C10. The test is a prefix match: a comment that starts with the
    marker, the name of an active service and a colon, and goes on with
    other text, removes the service from the parsed list; without that
    comment the same data give the service. *)
Theorem comment_with_more_text_hides_service (U : runtime) :
  parse_compose_file U (Some plex_file_with_note) = []
  /\ parse_compose_file U (Some plex_file) = [(NStr (u "plex"), YStr [], None)]
  /\ loaded plex_file_with_note = loaded plex_file
  /\ raw plex_file_with_note = raw plex_file ++ u "# plex: media server" ++ [NL].
Proof.
  repeat split.
Qed.

Section DescriptionFacts.
Variable U : runtime.

Lemma description_in_list_first (before after : list yaml) (value : str) :
  (forall s, In (YStr s) before -> startswith s (u "homepage.description:") = false) ->
  description_in_list U (before ++ YStr (u "homepage.description:" ++ value) :: after)
  = Ret (Some (YStr (strip U value))).
Proof.
  induction before as [|x before IH]; intros Hb.
  - cbn [app description_in_list]. rewrite startswith_app. reflexivity.
  - cbn [app description_in_list].
    assert (IH' := IH (fun s Hs => Hb s (or_intror Hs))).
    destruct x; auto.
    rewrite (Hb s (or_introl eq_refl)). exact IH'.
Qed.

End DescriptionFacts.

(** C2. When a service has a non-empty [homepage.description] label,
    in a mapping or in a list of labels, and the text of the file also
    gives it a description in the comment above its declaration,
    [extract_description] returns the description of the label.  The
    name of the service is a [str] or a [bytes]. *)
Theorem label_description_wins
    (U : runtime) (service_data : list (yaml * yaml)) (name : pyname) (content : str)
    (labels desc : yaml) :
  dict_get service_data (u "labels") = Some labels ->
  label_description U labels desc ->
  has_comment U name content ->
  extract_description U service_data name content = Ret desc.
Proof.
  intros Hl Hd _. unfold extract_description. rewrite Hl.
  destruct Hd as [d desc Hget Ht | before after value Hb _].
  - rewrite Hget, Ht. reflexivity.
  - rewrite description_in_list_first by exact Hb. reflexivity.
Qed.

Lemma label_description_wins_witness :
  extract_description unicode_excerpt whoami_mapping (NStr (u "whoami")) whoami_text
  = Ret (YStr (u "Identity service"))
  /\ extract_description unicode_excerpt whoami_list (NStr (u "whoami")) whoami_text
     = Ret (YStr (u "Identity service"))
  /\ comment_description unicode_excerpt (u "whoami") whoami_text = u "Tiny test server".
Proof.
  split; [|split].
  - apply (@label_description_wins unicode_excerpt whoami_mapping (NStr (u "whoami"))
             whoami_text
             (YDict [ (YStr (u "traefik.enable"), YBool true);
                      (YStr (u "homepage.description"), YStr (u "Identity service")) ])).
    + reflexivity.
    + apply label_in_mapping; reflexivity.
    + vm_compute. discriminate.
  - apply (@label_description_wins unicode_excerpt whoami_list (NStr (u "whoami"))
             whoami_text
             (YList ([YStr (u "traefik.enable=true")]
                     ++ YStr (u "homepage.description:" ++ u " Identity service") :: []))).
    + reflexivity.
    + apply (@label_in_list unicode_excerpt [YStr (u "traefik.enable=true")] []
               (u " Identity service")).
      * intros s [H | []]. inversion H; subst. reflexivity.
      * vm_compute. discriminate.
    + vm_compute. discriminate.
  - reflexivity.
Defined.

(** C3. On the fixture of the specification the first run wraps the
    bold name in the hand-written link, and the next run, given that
    output as the previous section and the same rendered text, returns
    the rendered text without the link: the label of the link is now
    [**Plex**], which is looked for between two more pairs of asterisks. *)
Theorem link_lost_on_second_run (U : runtime) :
  preserve_manual_enhancements U plex_previous plex_rendered = Ret plex_merged
  /\ extract_links U plex_merged
     = [ (u "**plex**", (u "**Plex**", u "https://plex.example.com")) ]
  /\ preserve_manual_enhancements U plex_merged plex_rendered = Ret plex_rendered
  /\ contains (u "https://plex.example.com") plex_rendered = false.
Proof.
  repeat split; vm_compute; reflexivity.
Qed.

Section SectionFacts.
Variable U : runtime.

Lemma lit_match_strip_prefix (l s : str) (prev : option N) :
  lit_match U false l s prev
  = match strip_prefix l s with
    | Some s' => Some (last_char prev l, s')
    | None => None
    end.
Proof.
  revert s prev. induction l as [|a l IH]; intros s prev; simpl; [reflexivity|].
  destruct s as [|c s]; [reflexivity|].
  destruct (N.eqb_spec a c); [subst; apply IH | reflexivity].
Qed.

Lemma rep_ext {A} (greedy : bool) (p : N -> bool) (k1 k2 : option N -> str -> option A) :
  (forall prev s, k1 prev s = k2 prev s) ->
  forall s prev, rep greedy p prev s k1 = rep greedy p prev s k2.
Proof.
  intros H. induction s as [|c t IH]; intros prev; simpl; [apply H|].
  rewrite !IH, !H. reflexivity.
Qed.

(** The lazy repetition of any character stops at the first place
    where the look-ahead holds. *)
Lemma rep_lazy_skip (s : str) (prev : option N) :
  rep false dotall prev s
    (fun _ s' => if at_h2 s' || match s' with [] => true | _ => false end
                 then Some (s', @nil (nat * str)) else None)
  = Some (skip_to_end s, []).
Proof.
  revert prev. induction s as [|c t IH]; intros prev; [reflexivity|].
  cbn [rep dotall skip_to_end].
  destruct (at_h2 (c :: t)); cbn [orb]; [reflexivity|]. apply IH.
Qed.

Lemma match_at_section (prev : option N) (s : str) :
  match_at U section_pattern prev s
  = match strip_prefix HEADING s with
    | Some s1 => Some (skip_to_end s1, [])
    | None => None
    end.
Proof.
  unfold match_at, section_pattern, seq. cbn [rmatch].
  rewrite lit_match_strip_prefix.
  destruct (strip_prefix HEADING s) as [s1|]; [|reflexivity].
  rewrite <- (rep_lazy_skip s1 (last_char prev HEADING)).
  apply rep_ext. intros p s'.
  rewrite lit_match_strip_prefix. unfold at_h2, startswith.
  destruct (strip_prefix (NL :: u "## ") s'); cbn [orb]; [reflexivity|].
  destruct s'; reflexivity.
Qed.

Lemma skip_to_end_spec (s : str) :
  exists body,
    s = body ++ skip_to_end s
    /\ (skip_to_end s = [] \/ at_h2 (skip_to_end s) = true)
    /\ (forall b1 b2, body = b1 ++ b2 -> b2 <> [] -> at_h2 (b2 ++ skip_to_end s) = false).
Proof.
  induction s as [|c t IH].
  - exists []. split; [reflexivity|]. split; [left; reflexivity|].
    intros b1 b2 H Hb. symmetry in H. apply app_eq_nil in H. tauto.
  - cbn [skip_to_end]. destruct (at_h2 (c :: t)) eqn:E.
    + exists []. split; [reflexivity|]. split; [right; exact E|].
      intros b1 b2 H Hb. symmetry in H. apply app_eq_nil in H. tauto.
    + destruct IH as [body [Hs [Hend Hmin]]].
      exists (c :: body). split; [cbn [app]; f_equal; exact Hs|].
      split; [exact Hend|].
      intros [|x b1] b2 H Hb2; cbn [app] in H.
      * subst b2. cbn [app]. rewrite <- Hs. exact E.
      * injection H as _ H. eauto.
Qed.

Lemma firstn_prefix (a b : str) :
  firstn (length (a ++ b) - length b) (a ++ b) = a.
Proof.
  rewrite length_app, Nat.add_sub. rewrite firstn_app, Nat.sub_diag, firstn_all.
  cbn [firstn]. apply app_nil_r.
Qed.

(** The match that starts where the heading text is. *)
Lemma span_found_here (h s1 : str) (n : nat) :
  forall body post g,
  s1 = body ++ post ->
  (post = [] \/ at_h2 post = true) ->
  (forall b1 b2, body = b1 ++ b2 -> b2 <> [] -> at_h2 (b2 ++ post) = false) ->
  h = HEADING ->
  n = (length (h ++ s1) - length post)%nat ->
  span_ends_at at_h2 (h ++ s1)
    {| f_pre := []; f_text := firstn n (h ++ s1); f_groups := g; f_post := post |}.
Proof.
  intros body post g -> Hend Hmin Hh ->.
  rewrite (app_assoc h body post), firstn_prefix.
  unfold span_ends_at. cbn [f_pre f_text f_post app].
  split; [reflexivity|].
  split.
  - intros p1 p2 H Hp. symmetry in H. apply app_eq_nil in H. tauto.
  - exists body. subst h. auto.
Qed.

Lemma span_found_later (c : N) (t : str) (m : found) :
  strip_prefix HEADING (c :: t) = None ->
  span_ends_at at_h2 t m ->
  span_ends_at at_h2 (c :: t) (push c m).
Proof.
  intros E [Hc [Hfirst Hbody]]. unfold span_ends_at, push.
  cbn [f_pre f_text f_post].
  split; [cbn [app]; f_equal; exact Hc|].
  split; [|exact Hbody].
  intros [|x p1] p2 H Hp2; cbn [app] in H.
  - subst p2. cbn [app]. rewrite <- Hc. unfold startswith. rewrite E. reflexivity.
  - injection H as _ H. eauto.
Qed.

Lemma search_from_eq (r : regex) (prev : option N) (s : str) :
  search_from U r prev s
  = match match_at U r prev s with
    | Some (s', g) =>
        Some {| f_pre := []; f_text := firstn (length s - length s') s;
                f_groups := g; f_post := s' |}
    | None =>
        match s with
        | [] => None
        | c :: t => option_map (push c) (search_from U r (Some c) t)
        end
    end.
Proof. destruct s; reflexivity. Qed.

Lemma search_from_section (s : str) :
  forall prev m,
  search_from U section_pattern prev s = Some m ->
  span_ends_at at_h2 s m.
Proof.
  induction s as [|c t IH]; intros prev m; rewrite search_from_eq;
    rewrite match_at_section.
  - change (strip_prefix HEADING []) with (@None str). discriminate.
  - destruct (strip_prefix HEADING (c :: t)) as [s1|] eqn:E.
    + intros H. injection H as <-.
      apply strip_prefix_inv in E. rewrite E.
      destruct (skip_to_end_spec s1) as [body [Hs [Hend Hmin]]].
      refine (@span_found_here HEADING s1 _ body (skip_to_end s1) [] Hs Hend Hmin eq_refl _).
      rewrite <- E. reflexivity.
    + destruct (search_from U section_pattern (Some c) t) as [m'|] eqn:Es;
        [|discriminate].
      cbn [option_map]. intros H. injection H as <-.
      apply span_found_later; eauto.
Qed.

End SectionFacts.

(** C4, as the code has it.  In every document that contains the
    heading text, the span of the section starts at the first occurrence
    of that text and runs to the first following line break that is
    followed by the level-2 marker and a space, or to the end of the
    document when there is none.  A level-1 heading line does not end
    it. *)
Theorem section_span_ends_at_level2 (U : runtime) (before rest : str) :
  exists m,
    search U section_pattern (before ++ HEADING ++ rest) = Some m
    /\ span_ends_at at_h2 (before ++ HEADING ++ rest) m.
Proof.
  destruct (search U section_pattern (before ++ HEADING ++ rest)) as [m|] eqn:E.
  - exists m. split; [reflexivity|]. eapply search_from_section. exact E.
  - exfalso. revert E. apply search_from_complete.
    rewrite match_at_section, strip_prefix_app. discriminate.
Qed.

Lemma span_ends_at_inside (stop : str -> bool) (content pre body post : str) (g : groups) :
  span_ends_at stop content
    {| f_pre := pre; f_text := HEADING ++ body; f_groups := g; f_post := post |} ->
  forall b1 b2, body = b1 ++ b2 -> b2 <> [] -> stop (b2 ++ post) = false.
Proof.
  intros [_ [_ [body' [Hb [_ Hmin]]]]].
  cbn [f_text f_post] in Hb, Hmin.
  apply app_inv_head in Hb. subst body'. exact Hmin.
Qed.

(** The span found in [readme_with_h1] runs over the level-1 heading
    [# Usage] and ends at [## License]: the property of C4 as the
    specification states it, with a heading of level 1 or 2 as the
    bound, fails there. *)
Lemma level1_heading_does_not_end_span :
  search unicode_excerpt section_pattern readme_with_h1 = Some span_with_h1
  /\ ~ span_ends_at at_top_heading readme_with_h1 span_with_h1.
Proof.
  split; [vm_compute; reflexivity|].
  intros H.
  assert (Hm := @span_ends_at_inside _ _ _ _ _ _ H
                  ([NL; NL] ++ u "### 🧩 Root" ++ [NL])
                  (NL :: u "# Usage" ++ [NL; NL] ++ u "### Install" ++ [NL])
                  eq_refl).
  vm_compute in Hm. assert (Hf : true = false) by (apply Hm; discriminate).
  discriminate.
Qed.

Section KeyFacts.
Variable U : runtime.

Lemma sub_go_here (r : regex) (repl : str -> str) (prev : option N) (c : N) (t : str) :
  sub_go U r repl 0 prev (c :: t)
  = match match_at U r prev (c :: t) with
    | Some (s', _) =>
        match (length (c :: t) - length s')%nat with
        | O => c :: sub_go U r repl 0 (Some c) t
        | S n => repl (firstn (S n) (c :: t)) ++ sub_go U r repl n (Some c) t
        end
    | None => c :: sub_go U r repl 0 (Some c) t
    end.
Proof. reflexivity. Qed.

Lemma sub_go_skip (r : regex) (repl : str -> str) (n : nat) (prev : option N)
    (c : N) (t : str) :
  sub_go U r repl (S n) prev (c :: t) = sub_go U r repl n (Some c) t.
Proof. reflexivity. Qed.

Lemma length_cons_sub (c : N) (t : str) : (length (c :: t) - length t = 1)%nat.
Proof. cbn [length]. lia. Qed.

Lemma sub_single_class (p : N -> bool) (s : str) :
  forall prev, sub_go U (Cls p) (fun _ => []) 0 prev s = filter (fun c => negb (p c)) s.
Proof.
  induction s as [|c t IH]; intros prev; [reflexivity|].
  rewrite sub_go_here. cbn [filter]. unfold match_at. cbn [rmatch].
  destruct (p c); cbn [negb].
  - rewrite length_cons_sub. cbn [app]. apply IH.
  - f_equal. apply IH.
Qed.

Lemma filter_all {A} (f : A -> bool) (l : list A) :
  Forall (fun x => f x = true) l -> filter f l = l.
Proof.
  induction 1 as [|x l Hx _ IH]; simpl; [reflexivity|].
  rewrite Hx, IH. reflexivity.
Qed.

Lemma Forall_filter {A} (P : A -> Prop) (f : A -> bool) (l : list A) :
  Forall P l -> Forall (fun x => P x /\ f x = true) (filter f l).
Proof.
  induction 1 as [|x l Hx _ IH]; simpl; [constructor|].
  destruct (f x) eqn:E; [constructor; auto | exact IH].
Qed.

Lemma rep_final_length (greedy : bool) (p : N -> bool) (s : str) :
  forall prev s' (g g' : groups),
  rep greedy p prev s (fun _ s0 => Some (s0, g)) = Some (s', g') ->
  (length s' <= length s)%nat.
Proof.
  induction s as [|c t IH]; intros prev s' g g'; simpl.
  - intros H. inversion H. simpl. lia.
  - destruct (p c).
    + destruct greedy.
      * destruct (rep true p (Some c) t (fun _ s0 => Some (s0, g))) as [[s1 g1]|] eqn:E.
        -- intros H. inversion H; subst. apply IH in E. lia.
        -- intros H. inversion H. simpl. lia.
      * intros H. inversion H. simpl. lia.
    + intros H. inversion H. simpl. lia.
Qed.

Lemma match_at_spaces (prev : option N) (c : N) (t : str) :
  match_at U (spaces_pattern U) prev (c :: t)
  = if is_space U c
    then rep true (is_space U) (Some c) t (fun _ s' => Some (s', []))
    else None.
Proof. reflexivity. Qed.

(** What [re.sub(r"\s+", "-", s)] is made of: hyphens and the
    characters of [s] that are not white space. *)
Lemma hyphenate_chars (Q : N -> Prop) (s : str) :
  Q HYPHEN ->
  forall skip prev,
  Forall (fun c => is_space U c = false -> Q c) s ->
  Forall Q (sub_go U (spaces_pattern U) (fun _ => u "-") skip prev s).
Proof.
  intros Hq. induction s as [|c t IH]; intros skip prev Hs; [constructor|].
  inversion Hs as [|? ? Hc Ht]; subst.
  destruct skip as [|n]; [|rewrite sub_go_skip; apply IH; exact Ht].
  rewrite sub_go_here, match_at_spaces. destruct (is_space U c) eqn:Ec.
  - destruct (rep true (is_space U) (Some c) t (fun _ s' => Some (s', [])))
      as [[s' g]|] eqn:Er.
    + apply rep_final_length in Er.
      destruct (length (c :: t) - length s')%nat as [|n] eqn:El;
        [cbn [length] in El; lia|].
      change (u "-") with [HYPHEN]. cbn [app].
      constructor; [exact Hq | apply IH; exact Ht].
    + exfalso. revert Er. apply rep_here. discriminate.
  - constructor; [auto | apply IH; exact Ht].
Qed.

Lemma hyphenate_fixed (s : str) :
  Forall (fun c => is_space U c = false) s ->
  forall prev, sub_go U (spaces_pattern U) (fun _ => u "-") 0 prev s = s.
Proof.
  induction 1 as [|c t Hc _ IH]; intros prev; [reflexivity|].
  rewrite sub_go_here, match_at_spaces, Hc. f_equal. apply IH.
Qed.

Lemma lstrip_fixed (s : str) :
  Forall (fun c => is_space U c = false) s -> lstrip U s = s.
Proof. destruct 1 as [|c t Hc _]; simpl; [reflexivity|]. rewrite Hc. reflexivity. Qed.

Lemma strip_fixed (s : str) :
  Forall (fun c => is_space U c = false) s -> strip U s = s.
Proof.
  intros H. unfold strip, rstrip. rewrite (lstrip_fixed H).
  rewrite lstrip_fixed; [apply rev_involutive|].
  apply Forall_rev. exact H.
Qed.

Lemma Forall_lstrip (P : N -> Prop) (s : str) : Forall P s -> Forall P (lstrip U s).
Proof.
  induction 1 as [|c t Hc Ht IH]; simpl; [constructor|].
  destruct (is_space U c); [exact IH | constructor; assumption].
Qed.

Lemma Forall_strip (P : N -> Prop) (s : str) : Forall P s -> Forall P (strip U s).
Proof.
  intros H. unfold strip, rstrip.
  apply Forall_rev, Forall_lstrip, Forall_rev, Forall_lstrip, H.
Qed.

Lemma lower_fixed (s : str) :
  Forall (fun c => lower1 U c = [c]) s -> lower U s = s.
Proof.
  unfold lower. induction 1 as [|c t Hc _ IH]; simpl; [reflexivity|].
  rewrite Hc, IH. reflexivity.
Qed.

Lemma settled_key_char (c : N) :
  settled U c = true -> is_space U c = false -> key_char U c.
Proof.
  unfold settled, key_char. intros H Hs. rewrite Hs in H. simpl in H.
  apply andb_prop in H. destruct H as [Hk He]. apply eqb_eq in He. auto.
Qed.

Lemma plain_key_chars (d : str) :
  forallb (case_stable U) d = true -> Forall (key_char U) (plain_key U d).
Proof.
  intros H. unfold plain_key, sub_plain, special_pattern.
  apply hyphenate_chars.
  - repeat split.
  - unfold lower. apply Forall_flat_map.
    apply Forall_strip. rewrite sub_single_class.
    rewrite forallb_forall in H. apply Forall_forall.
    intros c Hc. apply filter_In in Hc. destruct Hc as [Hin Hk].
    specialize (H c Hin). unfold case_stable in H.
    unfold kept in H. rewrite negb_involutive in Hk.
    change (N.eqb c 45) with (c =? HYPHEN) in *.
    rewrite Hk in H. simpl in H.
    rewrite forallb_forall in H. apply Forall_forall.
    intros c' Hc'. apply settled_key_char. auto.
Qed.

Lemma plain_key_fixed (k : str) : Forall (key_char U) k -> plain_key U k = k.
Proof.
  intros H. unfold plain_key, sub_plain, special_pattern.
  assert (Hs : Forall (fun c => is_space U c = false) k).
  { eapply Forall_impl; [|exact H]. intros c [? _]. assumption. }
  rewrite sub_single_class, filter_all.
  - rewrite (strip_fixed Hs), lower_fixed, hyphenate_fixed; auto.
    eapply Forall_impl; [|exact H]. intros c [_ [_ ?]]. assumption.
  - eapply Forall_impl; [|exact H]. intros c [_ [Hk _]].
    rewrite negb_involutive. exact Hk.
Qed.

Lemma map_variations_fixed (k : str) :
  map_variations (map_variations k) = map_variations k.
Proof.
  unfold map_variations at 2 3.
  repeat match goal with
         | |- context [if ?b then _ else _] => destruct b eqn:?; [reflexivity|]
         end.
  unfold map_variations.
  repeat match goal with H : _ = false |- _ => rewrite H; clear H end.
  reflexivity.
Qed.

Lemma ascii_case_stable (c : N) : c < 128 -> case_stable U c = true.
Proof.
  intros H.
  assert (Hall : forallb (case_stable U) ascii_table = true) by (vm_compute; reflexivity).
  rewrite forallb_forall in Hall. apply Hall.
  unfold ascii_table. apply in_map_iff. exists (N.to_nat c).
  split; [apply N2Nat.id|]. apply in_seq. lia.
Qed.

Lemma map_variations_chars (k : str) :
  Forall (key_char U) k -> Forall (key_char U) (map_variations k).
Proof.
  intros H. unfold map_variations.
  repeat match goal with
         | |- context [if ?b then _ else _] =>
             destruct b; [repeat (constructor; [repeat split|]); constructor|]
         end.
  exact H.
Qed.

Lemma stack_key_of_fixed (d : str) :
  forallb (case_stable U) d = true ->
  stack_key_of U (stack_key_of U d) = stack_key_of U d.
Proof.
  intros H.
  change (stack_key_of U d) with (map_variations (plain_key U d)).
  change (stack_key_of U (map_variations (plain_key U d)))
    with (map_variations (plain_key U (map_variations (plain_key U d)))).
  rewrite plain_key_fixed.
  - apply map_variations_fixed.
  - apply map_variations_chars, plain_key_chars, H.
Qed.

End KeyFacts.

(** C6, as the code has it.  The normalisation of a display name is
    idempotent when each of its characters is case-stable: removed by
    the first step, or lowered to characters that are white space or
    that lower-casing leaves unchanged.  Every ASCII character is
    case-stable.  The display names "App", "Apps" and "Application" all
    have the key "app". *)
Theorem stack_key_idempotent_on_case_stable_names (U : runtime) (display_name : str) :
  (forallb (case_stable U) display_name = true ->
   stack_key_of U (stack_key_of U display_name) = stack_key_of U display_name)
  /\ (forall c, c < 128 -> case_stable U c = true)
  /\ stack_key_of U (u "App") = u "app"
  /\ stack_key_of U (u "Apps") = u "app"
  /\ stack_key_of U (u "Application") = u "app".
Proof.
  split; [apply stack_key_of_fixed|].
  split; [apply ascii_case_stable|].
  repeat split.
Qed.

Lemma stack_key_idempotent_on_case_stable_names_witness :
  stack_key_of unicode_excerpt (stack_key_of unicode_excerpt (u "🎬 Media & TV"))
  = stack_key_of unicode_excerpt (u "🎬 Media & TV")
  /\ stack_key_of unicode_excerpt (u "🎬 Media & TV") = u "media-tv".
Proof.
  split; [|reflexivity].
  apply (proj1 (stack_key_idempotent_on_case_stable_names unicode_excerpt (u "🎬 Media & TV"))).
  reflexivity.
Defined.

(** With the lower-case mapping of U+0130, the key of the one-letter
    name "İ" is "i" followed by the combining dot, and the key of that
    key is "i": the normalisation is not idempotent there. *)
Lemma stack_key_not_idempotent_on_dotted_capital_i :
  stack_key_of unicode_excerpt [304] = [105; 775]
  /\ stack_key_of unicode_excerpt (stack_key_of unicode_excerpt [304]) = [105]
  /\ stack_key_of unicode_excerpt (stack_key_of unicode_excerpt [304])
     <> stack_key_of unicode_excerpt [304].
Proof.
  repeat split. vm_compute. discriminate.
Qed.

Section SetFacts.

Lemma mem_In (x : str) (l : list str) : mem x l = true <-> In x l.
Proof.
  unfold mem. rewrite existsb_exists. split.
  - intros [y [Hy He]]. apply eqb_eq in He. subst. exact Hy.
  - intros H. exists x. split; [exact H | apply eqb_refl].
Qed.

Lemma mem_not_In (x : str) (l : list str) : mem x l = false <-> ~ In x l.
Proof.
  rewrite <- mem_In. destruct (mem x l); split; congruence.
Qed.

Lemma In_set_of (x : str) (l : list str) : In x (set_of l) <-> In x l.
Proof.
  induction l as [|y l IH]; simpl; [tauto|].
  destruct (mem y l) eqn:E.
  - apply mem_In in E. rewrite IH. split; [tauto|]. intros [<- | H]; auto.
  - simpl. rewrite IH. tauto.
Qed.

Lemma NoDup_set_of (l : list str) : NoDup (set_of l).
Proof.
  induction l as [|y l IH]; simpl; [constructor|].
  destruct (mem y l) eqn:E; [exact IH|].
  constructor; [|exact IH]. rewrite In_set_of. apply mem_not_In. exact E.
Qed.

Lemma In_difference (x : str) (a b : list str) :
  In x (difference a b) <-> In x a /\ ~ In x b.
Proof.
  unfold difference. rewrite filter_In, negb_true_iff, mem_not_In. tauto.
Qed.

Lemma NoDup_singleton (m : str) (l : list str) :
  NoDup l -> (forall x, In x l <-> x = m) -> l = [m].
Proof.
  intros Hn H. destruct l as [|a l].
  - exfalso. apply (H m). reflexivity.
  - assert (a = m) by (apply H; left; reflexivity). subst a.
    destruct l as [|b l]; [reflexivity|]. exfalso.
    assert (b = m) by (apply H; right; left; reflexivity). subst b.
    inversion Hn; subst. apply H2. left. reflexivity.
Qed.

(** A set difference with exactly one element. *)
Lemma difference_singleton (m : str) (a b : list str) :
  (forall x, In x a /\ ~ In x b <-> x = m) ->
  difference (set_of a) (set_of b) = [m].
Proof.
  intros H. apply NoDup_singleton.
  - apply NoDup_filter, NoDup_set_of.
  - intros x. rewrite In_difference, !In_set_of. apply H.
Qed.

Lemma difference_empty (a b : list str) :
  difference a b = [] -> forall x, In x a -> In x b.
Proof.
  intros H x Hx. destruct (mem x b) eqn:E; [apply mem_In; exact E|].
  exfalso. apply mem_not_In in E.
  assert (Hd : In x (difference a b)) by (apply In_difference; auto).
  rewrite H in Hd. destruct Hd.
Qed.

End SetFacts.

(** C7. When the stacks on disk are "root" and "core" and the headers
    of the document give the keys "root" and "media", the check fails,
    and it prints "media" as a stack of the README with no Compose file,
    with the path where one is expected, and "core" as a stack with
    services that the README lacks, with the heading to add. *)
Theorem validate_reports_core_and_media
    (U : runtime) (stack_headers : headers_t) (stacks : stacks_t) :
  (forall k, In k (map fst stacks) <-> k = u "root" \/ k = u "core") ->
  (forall k, In k (map snd stack_headers) <-> k = u "root" \/ k = u "media") ->
  validate_stacks U stack_headers stacks
  = (false,
     [ Line (NL :: u "✗ Stack mismatch detected!");
       Line (NL :: u "Stacks in README but missing compose files or services:");
       ExpectedAt (u "media") (StackCompose (u "media"));
       Line (NL :: u "Stacks with services but missing in README:");
       Line (u "  - core");
       Line (u "    Add a section like '### Core' to README.md") ]).
Proof.
  intros Hd Hh. unfold validate_stacks.
  rewrite (@difference_singleton (u "core") (map fst stacks) (map snd stack_headers)).
  2:{ intros x. rewrite Hd, Hh. split.
      - intros [[-> | ->] Hn]; [exfalso; apply Hn; left; reflexivity | reflexivity].
      - intros ->. split; [right; reflexivity|].
        intros [H | H]; vm_compute in H; discriminate. }
  rewrite (@difference_singleton (u "media") (map snd stack_headers) (map fst stacks)).
  2:{ intros x. rewrite Hd, Hh. split.
      - intros [[-> | ->] Hn]; [exfalso; apply Hn; left; reflexivity | reflexivity].
      - intros ->. split; [right; reflexivity|].
        intros [H | H]; vm_compute in H; discriminate. }
  reflexivity.
Qed.

Lemma validate_reports_core_and_media_witness :
  fst (validate_stacks unicode_excerpt headers_root_media disk_root_core) = false
  /\ In (ExpectedAt (u "media") (StackCompose (u "media")))
        (snd (validate_stacks unicode_excerpt headers_root_media disk_root_core))
  /\ In (Line (u "  - core"))
        (snd (validate_stacks unicode_excerpt headers_root_media disk_root_core)).
Proof.
  rewrite (@validate_reports_core_and_media unicode_excerpt headers_root_media disk_root_core).
  - simpl. intuition.
  - intros k. simpl. intuition.
  - intros k. simpl. intuition.
Defined.

Section RenderFacts.
Variable U : runtime.

Lemma service_entry_without_url (s : service) :
  service_entry U (without_url s) = service_entry U s.
Proof. destruct s as [[name desc] link]. reflexivity. Qed.

Lemma table_without_urls (services : list service) :
  generate_markdown_table U (map without_url services)
  = generate_markdown_table U services.
Proof.
  unfold generate_markdown_table. rewrite map_map.
  f_equal. apply map_ext. apply service_entry_without_url.
Qed.

Lemma dict_lookup_without_urls (stacks : stacks_t) (k : str) :
  dict_lookup (without_urls stacks) k
  = option_map (map without_url) (dict_lookup stacks k).
Proof.
  induction stacks as [|[k' v] stacks IH]; simpl; [reflexivity|].
  destruct (Str.eqb k' k); [reflexivity | exact IH].
Qed.

Lemma header_lines_without_urls (stacks : stacks_t) (h : str * str) :
  header_lines U (without_urls stacks) h = header_lines U stacks h.
Proof.
  destruct h as [display key]. unfold header_lines.
  rewrite dict_lookup_without_urls.
  destruct (dict_lookup stacks key) as [[|s l]|]; simpl; try reflexivity.
  change (without_url s :: map without_url l) with (map without_url (s :: l)).
  rewrite table_without_urls. reflexivity.
Qed.

Lemma section_without_urls (stack_headers : headers_t) (stacks : stacks_t) :
  generate_service_section U stack_headers (without_urls stacks)
  = generate_service_section U stack_headers stacks.
Proof.
  unfold generate_service_section, section_lines. do 2 f_equal.
  induction stack_headers as [|h hs IH]; simpl; [reflexivity|].
  rewrite header_lines_without_urls, IH. reflexivity.
Qed.

(** The first character of a paragraph of services is an asterisk. *)
Lemma table_starts_bold (s : service) (l : list service) :
  exists rest, generate_markdown_table U (s :: l) = 42 :: rest.
Proof.
  unfold generate_markdown_table. cbn [map].
  assert (He : exists rest, service_entry U s = 42 :: rest).
  { destruct s as [[name desc] link]. unfold service_entry.
    destruct (truthy desc); eexists; reflexivity. }
  destruct He as [rest He]. rewrite He.
  destruct (map (service_entry U) l); simpl; eexists; reflexivity.
Qed.

Lemma dict_set_values {V} (P : V -> Prop) (d : list (str * V)) (k : str) (v : V) :
  Forall (fun kv => P (snd kv)) d -> P v ->
  Forall (fun kv => P (snd kv)) (dict_set d k v).
Proof.
  intros Hd Hv. induction Hd as [|[k' v'] d Hk Hd' IH]; simpl.
  - constructor; [exact Hv | constructor].
  - destruct (Str.eqb k' k); constructor; auto.
Qed.

Lemma collect_stacks_values (entries : list dir_entry) :
  forall stacks result,
  Forall (fun kv => snd kv <> []) stacks ->
  collect_stacks U entries stacks = Ret result ->
  Forall (fun kv : str * list service => snd kv <> []) result.
Proof.
  induction entries as [|e entries IH]; intros stacks result H Hc;
    cbn [collect_stacks] in Hc.
  - injection Hc as <-. exact H.
  - destruct (negb (is_dir e)); [exact (IH _ _ H Hc)|].
    destruct (print_lines U _); cbn [bind] in Hc; [|discriminate].
    destruct (parse_compose_file U (compose_yaml e)) as [|s l] eqn:E;
      [exact (IH _ _ H Hc)|].
    refine (IH _ _ _ Hc).
    apply (@dict_set_values _ (fun v => v <> [])); [exact H | discriminate].
Qed.

(** [collect_services] records a stack with its services only when
    there is at least one. *)
Lemma collect_services_values (w : world) (stacks : stacks_t) :
  collect_services U w = Ret stacks ->
  Forall (fun kv => snd kv <> []) stacks.
Proof.
  unfold collect_services.
  assert (H0 : Forall (fun kv : str * list service => snd kv <> [])
                 match parse_compose_file U (root_compose w) with
                 | [] => []
                 | services => dict_set [] (u "root") services
                 end).
  { destruct (parse_compose_file U (root_compose w)); [constructor|].
    apply (@dict_set_values _ (fun v => v <> [])); [constructor | discriminate]. }
  destruct (print_lines U _); cbn [bind]; [|discriminate].
  destruct (stacks_dir w); intros H; [injection H as <-; exact H0 | discriminate |].
  exact (collect_stacks_values _ H0 H).
Qed.

Lemma dict_lookup_In {V} (d : list (str * V)) (k : str) :
  In k (map fst d) -> exists v, dict_lookup d k = Some v /\ In v (map snd d).
Proof.
  induction d as [|[k' v'] d IH]; simpl; [tauto|].
  destruct (Str.eqb k' k) eqn:E.
  - intros _. exists v'. auto.
  - intros [H | H]; [apply eqb_neq in E; contradiction|].
    destruct (IH H) as [v [Hv Hin]]. exists v. auto.
Qed.

(** After a check that passed, every header has a stack on disk. *)
Lemma validate_headers_on_disk (stack_headers : headers_t) (stacks : stacks_t) :
  fst (validate_stacks U stack_headers stacks) = true ->
  forall k, In k (map snd stack_headers) -> In k (map fst stacks).
Proof.
  unfold validate_stacks.
  destruct (difference (set_of (map fst stacks)) (set_of (map snd stack_headers)));
    destruct (difference (set_of (map snd stack_headers)) (set_of (map fst stacks)))
      eqn:E; simpl; try discriminate.
  intros _ k Hk. apply In_set_of.
  apply (difference_empty _ _ E). apply In_set_of. exact Hk.
Qed.

Lemma header_has_services (stack_headers : headers_t) (stacks : stacks_t) :
  Forall (fun kv => snd kv <> []) stacks ->
  fst (validate_stacks U stack_headers stacks) = true ->
  forall display key, In (display, key) stack_headers ->
  exists s l, dict_lookup stacks key = Some (s :: l).
Proof.
  intros Hv Hok display key Hin.
  assert (Hk : In key (map fst stacks)).
  { apply (validate_headers_on_disk _ _ Hok).
    apply in_map_iff. exists (display, key). auto. }
  destruct (dict_lookup_In _ _ Hk) as [v [Hl Hvin]].
  apply in_map_iff in Hvin. destruct Hvin as [[k' v'] [Hs Hkv]]. simpl in Hs. subst v'.
  rewrite Forall_forall in Hv. specialize (Hv _ Hkv). simpl in Hv.
  destruct v as [|s l]; [contradiction|]. eauto.
Qed.

End RenderFacts.

(** C8. Two dicts of stacks that are equal once the URLs of their
    services are forgotten render to the same section. *)
Theorem rendered_section_ignores_urls
    (U : runtime) (stack_headers : headers_t) (stacks1 stacks2 : stacks_t) :
  without_urls stacks1 = without_urls stacks2 ->
  generate_service_section U stack_headers stacks1
  = generate_service_section U stack_headers stacks2.
Proof.
  intros H.
  rewrite <- (section_without_urls U stack_headers stacks1).
  rewrite <- (section_without_urls U stack_headers stacks2).
  rewrite H. reflexivity.
Qed.

Lemma rendered_section_ignores_urls_witness :
  generate_service_section unicode_excerpt headers_root_media stacks_with_url
  = generate_service_section unicode_excerpt headers_root_media stacks_without_url
  /\ stacks_with_url <> stacks_without_url.
Proof.
  split.
  - apply (@rendered_section_ignores_urls unicode_excerpt headers_root_media
             stacks_with_url stacks_without_url).
    reflexivity.
  - discriminate.
Defined.

(** C9. When the stacks are those [collect_services] recorded and the
    check passes on them, every header entry has a stack with at least
    one service, and no line of the rendered section is the line
    [_No services defined_] of the empty case. *)
Theorem placeholder_unreachable_after_check
    (U : runtime) (w : world) (stacks : stacks_t) (stack_headers : headers_t) :
  collect_services U w = Ret stacks ->
  fst (validate_stacks U stack_headers stacks) = true ->
  (forall display key, In (display, key) stack_headers ->
     exists s l, dict_lookup stacks key = Some (s :: l))
  /\ ~ In PLACEHOLDER (section_lines U stack_headers stacks).
Proof.
  intros Hc Hok.
  assert (Hs := @header_has_services U stack_headers stacks
                  (@collect_services_values U w stacks Hc) Hok).
  split; [exact Hs|].
  unfold section_lines. intros Hin. apply in_app_or in Hin.
  destruct Hin as [Hin | Hin].
  - simpl in Hin. repeat destruct Hin as [Hin | Hin]; try discriminate; auto.
  - apply in_flat_map in Hin. destruct Hin as [[display key] [Hh Hin]].
    destruct (Hs _ _ Hh) as [s [l Hl]].
    unfold header_lines in Hin. rewrite Hl in Hin.
    destruct (table_starts_bold U s l) as [rest Ht]. rewrite Ht in Hin.
    simpl in Hin. repeat destruct Hin as [Hin | Hin]; try discriminate; auto.
Qed.

Lemma placeholder_unreachable_after_check_witness :
  collect_services unicode_excerpt small_world
  = Ret [ (u "root", [ (NStr (u "whoami"), YStr (u "Identity service"), None) ]) ]
  /\ ~ In PLACEHOLDER
       (section_lines unicode_excerpt [ (u "🧩 Root", u "root") ]
          [ (u "root", [ (NStr (u "whoami"), YStr (u "Identity service"), None) ]) ]).
Proof.
  split; [reflexivity|].
  apply (@placeholder_unreachable_after_check unicode_excerpt small_world
           [ (u "root", [ (NStr (u "whoami"), YStr (u "Identity service"), None) ]) ]
           [ (u "🧩 Root", u "root") ]).
  - reflexivity.
  - reflexivity.
Defined.


Section RunFacts.
Variable U : runtime.

Lemma print_lines_app (a b : list printed) :
  print_lines U (a ++ b) = (_ <- print_lines U a ;; print_lines U b).
Proof.
  induction a as [|line a IH]; cbn [app print_lines]; [reflexivity|].
  destruct (print_line U line) as [[]|]; cbn [bind]; [exact IH | reflexivity].
Qed.

(** A check that passes prints nothing. *)
Lemma validate_quiet (stack_headers : headers_t) (stacks : stacks_t) :
  fst (validate_stacks U stack_headers stacks) = true ->
  snd (validate_stacks U stack_headers stacks) = [].
Proof.
  unfold validate_stacks.
  destruct (difference (set_of (map fst stacks)) (set_of (map snd stack_headers)));
    destruct (difference (set_of (map snd stack_headers)) (set_of (map fst stacks)));
    cbn [fst snd]; intros H; [reflexivity | discriminate..].
Qed.

Lemma run_status (w : world) : run U w = (status_of (fst (main U w)), snd (main U w)).
Proof. unfold run. destruct (main U w) as [[status|e] w']; reflexivity. Qed.

(** [main] once the services are collected. *)
Lemma main_eq (w : world) :
  main U w
  = match collect_and_report U w with
    | Ret stacks =>
        match update_readme U stacks w with
        | (Ret true, w') => (_ <- print_line U UPDATED ;; Ret 0%Z, w')
        | (Ret false, w') => (_ <- print_line U FAILED ;; Ret 1%Z, w')
        | (Raise e, w') => (Raise e, w')
        end
    | Raise e => (Raise e, w)
    end.
Proof.
  unfold main, io_bind, io_ret, io_lift.
  destruct (collect_and_report U w) as [stacks|e]; [|reflexivity].
  destruct (update_readme U stacks w) as [[[|]|e] w']; try reflexivity.
  - destruct (print_line U UPDATED) as [[]|]; reflexivity.
  - destruct (print_line U FAILED) as [[]|]; reflexivity.
Qed.

(** [update_readme] when a step before the write fails: nothing is
    written and it does not return [True]. *)
Lemma update_readme_stops (stacks : stacks_t) (w : world) :
  (forall content stack_headers updated,
     readme w = Some content ->
     parse_existing_stack_headers U content = Ret stack_headers ->
     fst (validate_stacks U stack_headers stacks) = true ->
     updated_content U stack_headers stacks content = Ret updated -> False) ->
  snd (update_readme U stacks w) = w
  /\ fst (update_readme U stacks w) <> Ret true.
Proof.
  intros Hno. unfold update_readme, io_bind, io_lift, io_ret.
  destruct (readme w) as [content|] eqn:Er.
  2:{ destruct (print_line U ReadmeNotFound) as [[]|]; split; cbn; congruence. }
  destruct (parse_existing_stack_headers U content) as [hs|e] eqn:Ep.
  2:{ destruct e; cbn [fst snd]; try (split; [reflexivity | discriminate]).
      destruct (print_line U _) as [[]|]; split; cbn; congruence. }
  destruct (print_lines U (snd (validate_stacks U hs stacks))) as [[]|];
    [|split; [reflexivity | discriminate]].
  destruct (fst (validate_stacks U hs stacks)) eqn:Ev; cbn [negb];
    [|split; [reflexivity | discriminate]].
  destruct (updated_content U hs stacks content) as [updated|e] eqn:Eu;
    [|split; [reflexivity | discriminate]].
  exfalso. exact (Hno content hs updated eq_refl Ep Ev Eu).
Qed.

(** [update_readme] when every step before the write succeeds. *)
Lemma update_readme_writes (stacks : stacks_t) (w : world) (content : str)
    (stack_headers : headers_t) (updated : str) :
  readme w = Some content ->
  parse_existing_stack_headers U content = Ret stack_headers ->
  fst (validate_stacks U stack_headers stacks) = true ->
  updated_content U stack_headers stacks content = Ret updated ->
  update_readme U stacks w
  = if forallb (encodes U) updated
    then (_ <- print_lines U (summary stack_headers stacks) ;; Ret true,
          set_readme updated w)
    else (Raise UnicodeEncodeError, set_readme [] w).
Proof.
  intros Hr Hp Hv Hu. unfold update_readme, io_bind, io_lift, io_ret.
  rewrite Hr, Hp, (validate_quiet _ _ Hv), Hv, Hu. cbn [print_lines negb].
  unfold write_readme. destruct (forallb (encodes U) updated); [|reflexivity].
  destruct (print_lines U (summary stack_headers stacks)) as [[]|]; reflexivity.
Qed.

(** The two ways a run goes: a step before the write fails, and the
    process ends with status 1 and the files as they were; or every
    step succeeds and the README is written. *)
Lemma run_cases (w : world) :
  ((forall stacks stack_headers updated,
      ~ steps_succeeded U w stacks stack_headers updated)
   /\ run U w = (1%Z, w))
  \/ exists stacks stack_headers updated,
       steps_succeeded U w stacks stack_headers updated
       /\ run U w
          = if forallb (encodes U) updated
            then (status_of (_ <- print_lines U (summary stack_headers stacks ++ [UPDATED]) ;;
                             Ret 0%Z),
                  set_readme updated w)
            else (1%Z, set_readme [] w).
Proof.
  rewrite run_status, main_eq.
  destruct (collect_and_report U w) as [stacks|e] eqn:Ec.
  2:{ left. split; [|reflexivity]. intros ? ? ? [H _]. congruence. }
  destruct (readme w) as [content|] eqn:Er.
  2:{ left. split; [intros ? ? ? [_ [c [H _]]]; congruence|].
      destruct (update_readme_stops stacks w) as [Hw Hf].
      { intros ? ? ? H. congruence. }
      destruct (update_readme U stacks w) as [[[|]|e] w']; cbn [fst snd] in *; subst;
        try reflexivity; [congruence|].
      destruct (print_line U FAILED) as [[]|]; reflexivity. }
  destruct (parse_existing_stack_headers U content) as [hs|e] eqn:Ep.
  2:{ left. split.
      { intros ? ? ? [_ [c [H1 [H2 _]]]]. congruence. }
      destruct (update_readme_stops stacks w) as [Hw Hf].
      { intros ? ? ? H1 H2. congruence. }
      destruct (update_readme U stacks w) as [[[|]|e'] w']; cbn [fst snd] in *; subst;
        try reflexivity; [congruence|].
      destruct (print_line U FAILED) as [[]|]; reflexivity. }
  destruct (fst (validate_stacks U hs stacks)) eqn:Ev.
  2:{ left. split.
      { intros s' h' u' [Hc [c [H1 [H2 [H3 _]]]]]. congruence. }
      destruct (update_readme_stops stacks w) as [Hw Hf].
      { intros ? ? ? H1 H2 H3. congruence. }
      destruct (update_readme U stacks w) as [[[|]|e'] w']; cbn [fst snd] in *; subst;
        try reflexivity; [congruence|].
      destruct (print_line U FAILED) as [[]|]; reflexivity. }
  destruct (updated_content U hs stacks content) as [updated|e] eqn:Eu.
  2:{ left. split.
      { intros s' h' u' [Hc [c [H1 [H2 [_ H4]]]]]. congruence. }
      destruct (update_readme_stops stacks w) as [Hw Hf].
      { intros ? ? ? H1 H2 _ H4. congruence. }
      destruct (update_readme U stacks w) as [[[|]|e'] w']; cbn [fst snd] in *; subst;
        try reflexivity; [congruence|].
      destruct (print_line U FAILED) as [[]|]; reflexivity. }
  right. exists stacks, hs, updated. split.
  { split; [exact Ec|]. exists content. auto. }
  rewrite (update_readme_writes stacks w Er Ep Ev Eu), print_lines_app.
  destruct (forallb (encodes U) updated); [|reflexivity].
  destruct (print_lines U (summary hs stacks)) as [[]|]; cbn [bind fst snd status_of];
    [|reflexivity].
  cbn [print_lines]. destruct (print_line U UPDATED) as [[]|]; reflexivity.
Qed.

(** The steps have one outcome. *)
Lemma steps_succeeded_unique (w : world) (s1 s2 : stacks_t) (h1 h2 : headers_t)
    (u1 u2 : str) :
  steps_succeeded U w s1 h1 u1 -> steps_succeeded U w s2 h2 u2 ->
  s1 = s2 /\ h1 = h2 /\ u1 = u2.
Proof.
  intros [Hc1 [c1 [Hr1 [Hp1 [_ Hu1]]]]] [Hc2 [c2 [Hr2 [Hp2 [_ Hu2]]]]].
  rewrite Hc1 in Hc2. injection Hc2 as <-.
  rewrite Hr1 in Hr2. injection Hr2 as <-.
  rewrite Hp1 in Hp2. injection Hp2 as <-.
  rewrite Hu1 in Hu2. injection Hu2 as <-. auto.
Qed.

End RunFacts.

(** C1, as the code has it.  Whatever the files are, the process ends with status
    0 or 1.  When a step before the write fails (collecting and
    reporting the services, reading the README, extracting its headers,
    the check, computing the new text), the files are as they were and
    the status is 1.  When every such step succeeds, the write empties
    the README and then puts the new text in it, unless the encoding
    lacks one of its characters: then the README stays empty.  The
    status is 0 exactly when the text was written and the four lines
    printed after the write were printed.  So the README changes only
    after every step succeeded, and a status 0 means it holds the new
    text. *)
Theorem readme_changes_only_after_every_step (U : runtime) (w : world) :
  (fst (run U w) = 0 \/ fst (run U w) = 1)%Z
  /\ ((forall stacks stack_headers updated,
         ~ steps_succeeded U w stacks stack_headers updated) ->
      run U w = (1%Z, w))
  /\ (forall stacks stack_headers updated,
        steps_succeeded U w stacks stack_headers updated ->
        snd (run U w)
        = set_readme (if forallb (encodes U) updated then updated else []) w
        /\ (fst (run U w) = 0%Z <->
            forallb (encodes U) updated = true
            /\ print_lines U (summary stack_headers stacks ++ [UPDATED]) = Ret tt))
  /\ (snd (run U w) <> w \/ fst (run U w) = 0%Z ->
      exists stacks stack_headers updated,
        steps_succeeded U w stacks stack_headers updated).
Proof.
  assert (Hst : forall r : exc unit,
             (status_of (_ <- r ;; Ret 0%Z) = 0%Z \/ status_of (_ <- r ;; Ret 0%Z) = 1%Z)
             /\ (status_of (_ <- r ;; Ret 0%Z) = 0%Z <-> r = Ret tt)).
  { intros [[]|e]; cbn [bind status_of]; split; auto; split; congruence. }
  destruct (run_cases U w) as [[Hno Hrun] | (stacks & hs & updated & Hsteps & Hrun)].
  - rewrite Hrun. cbn [fst snd]. split; [right; reflexivity|]. split; [reflexivity|].
    split.
    + intros s h x H. destruct (Hno s h x H).
    + intros [H | H]; [contradiction | discriminate].
  - split; [|split; [|split]].
    + rewrite Hrun. destruct (forallb (encodes U) updated); cbn [fst]; [|auto].
      apply Hst.
    + intros Hno. destruct (Hno _ _ _ Hsteps).
    + intros s h x H.
      destruct (steps_succeeded_unique Hsteps H) as (<- & <- & <-).
      rewrite Hrun. destruct (forallb (encodes U) updated); cbn [fst snd].
      * split; [reflexivity|]. rewrite (proj2 (Hst _)). tauto.
      * split; [reflexivity|]. split; [discriminate | intros [H1 _]; discriminate].
    + intros _. exists stacks, hs, updated. exact Hsteps.
Qed.

Lemma readme_changes_only_after_every_step_witness :
  snd (run unicode_excerpt small_world) = set_readme small_readme_updated small_world
  /\ fst (run unicode_excerpt small_world) = 0%Z.
Proof.
  destruct (proj1 (proj2 (proj2
              (readme_changes_only_after_every_step unicode_excerpt small_world)))
              [ (u "root", [ (NStr (u "whoami"), YStr (u "Identity service"), None) ]) ]
              [ (u "🧩 Root", u "root") ]
              small_readme_updated) as [Hw Hs].
  - split; [vm_compute; reflexivity|].
    exists small_readme. repeat split; vm_compute; reflexivity.
  - split; [exact Hw|]. apply Hs. split; vm_compute; reflexivity.
Defined.

(** The description of the only service has a lone surrogate, which
    UTF-8 does not encode: every step before the write succeeds, the
    write empties the README and raises, and the process ends with
    status 1 and an empty README.  The property of C1 as the
    specification states it, a README unchanged whenever the status is
    1, fails there. *)
Lemma failed_write_empties_readme :
  ~ (fst (run unicode_excerpt surrogate_world) = 1%Z ->
     snd (run unicode_excerpt surrogate_world) = surrogate_world)
  /\ run unicode_excerpt surrogate_world = (1%Z, set_readme [] surrogate_world)
  /\ readme surrogate_world = Some small_readme
  /\ readme (snd (run unicode_excerpt surrogate_world)) = Some [].
Proof.
  assert (Hrun : run unicode_excerpt surrogate_world = (1%Z, set_readme [] surrogate_world))
    by (vm_compute; reflexivity).
  split; [|split; [exact Hrun | split; [reflexivity | rewrite Hrun; reflexivity]]].
  rewrite Hrun. cbn [fst snd]. intros H. specialize (H eq_refl).
  apply (f_equal readme) in H. vm_compute in H. discriminate.
Qed.

(* ================================================================== *)
(** * Further properties of the consistency check and the collection *)
(* ================================================================== *)

Section CheckFacts.
Variable U : runtime.

Lemma difference_nil (a b : list str) :
  (forall x, In x a -> In x b) -> difference a b = [].
Proof.
  intros H. unfold difference. induction a as [|x a IH]; [reflexivity|].
  cbn [filter]. assert (Hx : mem x b = true) by (apply mem_In, H; left; reflexivity).
  rewrite Hx. cbn [negb]. apply IH. intros y Hy. apply H. right. exact Hy.
Qed.

Lemma In_insert_entry (e x : dir_entry) (l : list dir_entry) :
  In x (insert_entry e l) -> x = e \/ In x l.
Proof.
  induction l as [|f l IH]; cbn [insert_entry].
  - intros [<- | []]. left. reflexivity.
  - destruct (Str.ltb (entry_name f) (entry_name e)).
    + intros [<- | H]; [right; left; reflexivity|].
      destruct (IH H) as [-> | H']; [left; reflexivity | right; right; exact H'].
    + intros [<- | H]; [left; reflexivity | right; exact H].
Qed.

Lemma In_sorted_entries (x : dir_entry) (l : list dir_entry) :
  In x (sorted_entries l) -> In x l.
Proof.
  induction l as [|e l IH]; cbn [sorted_entries fold_right]; [tauto|].
  intros H. apply In_insert_entry in H. destruct H as [-> | H].
  - left. reflexivity.
  - right. apply IH. exact H.
Qed.

Lemma In_dict_set {V} (d : list (str * V)) (k k' : str) (v v' : V) :
  In (k, v) (dict_set d k' v') -> (k, v) = (k', v') \/ In (k, v) d.
Proof.
  induction d as [|[k0 v0] d IH]; cbn [dict_set].
  - intros [H | []]. left. symmetry. exact H.
  - destruct (Str.eqb k0 k').
    + intros [H | H]; [left; symmetry; exact H | right; right; exact H].
    + intros [H | H]; [right; left; exact H|].
      destruct (IH H) as [H' | H']; [left; exact H' | right; right; exact H'].
Qed.

Lemma collect_stacks_from_disk (w : world) (all : list dir_entry) (entries : list dir_entry) :
  (forall e, In e entries -> In e all) ->
  forall stacks result,
  Forall (from_disk U w all) stacks ->
  collect_stacks U entries stacks = Ret result ->
  Forall (from_disk U w all) result.
Proof.
  induction entries as [|e entries IH]; intros Hsub stacks result H Hc;
    cbn [collect_stacks] in Hc; [injection Hc as <-; exact H|].
  assert (Hsub' : forall e', In e' entries -> In e' all)
    by (intros e' He'; apply Hsub; right; exact He').
  destruct (is_dir e) eqn:Ed; cbn [negb] in Hc; [|exact (IH Hsub' _ _ H Hc)].
  destruct (print_lines U _); cbn [bind] in Hc; [|discriminate].
  destruct (parse_compose_file U (compose_yaml e)) as [|s l] eqn:E;
    [exact (IH Hsub' _ _ H Hc)|].
  refine (IH Hsub' _ _ _ Hc).
  apply Forall_forall. intros [k v] Hkv.
  apply In_dict_set in Hkv. destruct Hkv as [Hkv | Hkv].
  - injection Hkv as -> ->. split; [discriminate|].
    right. exists e. cbn [fst snd]. repeat split; auto.
    apply Hsub. left. reflexivity.
  - rewrite Forall_forall in H. apply H. exact Hkv.
Qed.

End CheckFacts.

(** X1. The check passes exactly when the keys of the headers and the
    keys of the stacks on disk are the same set, and it then prints
    nothing. *)
Theorem validate_passes_iff_same_keys
    (U : runtime) (stack_headers : headers_t) (stacks : stacks_t) :
  validate_stacks U stack_headers stacks = (true, [])
  <-> (forall k, In k (map snd stack_headers) <-> In k (map fst stacks)).
Proof.
  unfold validate_stacks. split.
  - destruct (difference (set_of (map fst stacks)) (set_of (map snd stack_headers)))
      eqn:E1;
      destruct (difference (set_of (map snd stack_headers)) (set_of (map fst stacks)))
        eqn:E2; try discriminate.
    intros _ k. split; intros Hk.
    + apply In_set_of. apply (difference_empty _ _ E2). apply In_set_of. exact Hk.
    + apply In_set_of. apply (difference_empty _ _ E1). apply In_set_of. exact Hk.
  - intros H.
    rewrite (@difference_nil (set_of (map fst stacks)) (set_of (map snd stack_headers))).
    2:{ intros x Hx. apply In_set_of. apply H. apply In_set_of. exact Hx. }
    rewrite (@difference_nil (set_of (map snd stack_headers)) (set_of (map fst stacks))).
    2:{ intros x Hx. apply In_set_of. apply H. apply In_set_of. exact Hx. }
    reflexivity.
Qed.

(** X2. Every entry [collect_services] records has at least one
    service, and is what [parse_compose_file] returns for the root
    Compose file, under the key "root", or for the [compose.yaml] of a
    directory of [stacks/], under the name of that directory. *)
Theorem collected_stacks_come_from_disk
    (U : runtime) (w : world) (stacks : stacks_t) :
  collect_services U w = Ret stacks ->
  Forall (from_disk U w (stack_entries w)) stacks.
Proof.
  unfold collect_services, stack_entries. intros H.
  assert (H0 : Forall (from_disk U w match stacks_dir w with Directory l => l | _ => [] end)
                 match parse_compose_file U (root_compose w) with
                 | [] => []
                 | services => dict_set [] (u "root") services
                 end).
  { destruct (parse_compose_file U (root_compose w)) as [|s l] eqn:E; [constructor|].
    constructor; [|constructor]. split; [discriminate|].
    left. cbn [fst snd]. split; [reflexivity | symmetry; exact E]. }
  destruct (print_lines U _); cbn [bind] in H; [|discriminate].
  destruct (stacks_dir w) as [| |l]; try (injection H as <-; exact H0); [discriminate|].
  refine (collect_stacks_from_disk _ _ H0 H).
  intros e He. apply In_sorted_entries. exact He.
Qed.

Lemma collected_stacks_come_from_disk_witness :
  Forall (from_disk unicode_excerpt mismatched_world
            [ {| entry_name := u "media"; is_dir := true; compose_yaml := Some plex_file |} ])
    [ (u "root", [ (NStr (u "whoami"), YStr (u "Identity service"), None) ]);
      (u "media", [ (NStr (u "plex"), YStr [], None) ]) ].
Proof.
  apply (@collected_stacks_come_from_disk unicode_excerpt mismatched_world).
  vm_compute. reflexivity.
Defined.

(** X3. A stack key never contains white space, whatever the display
    name is. *)
Theorem stack_key_has_no_space (U : runtime) (display_name : str) :
  Forall (fun c => is_space U c = false) (stack_key_of U display_name).
Proof.
  change (stack_key_of U display_name) with (map_variations (plain_key U display_name)).
  assert (Hp : Forall (fun c => is_space U c = false) (plain_key U display_name)).
  { unfold plain_key, sub_plain. apply hyphenate_chars; [reflexivity|].
    apply Forall_forall. intros c _ Hc. exact Hc. }
  unfold map_variations.
  repeat match goal with
         | |- context [if ?b then _ else _] =>
             destruct b; [repeat (constructor; [reflexivity|]); constructor|]
         end.
  exact Hp.
Qed.

(** X4. The rendered section starts with the section heading, so that
    the search for the section finds it at the very start of the
    rendered text. *)
Theorem rendered_section_is_found
    (U : runtime) (stack_headers : headers_t) (stacks : stacks_t) :
  exists m rest,
    search U section_pattern (generate_service_section U stack_headers stacks) = Some m
    /\ f_pre m = []
    /\ generate_service_section U stack_headers stacks = HEADING ++ NL :: rest.
Proof.
  assert (Hg : exists rest,
             generate_service_section U stack_headers stacks = HEADING ++ NL :: rest).
  { unfold generate_service_section, section_lines. cbn [app join].
    eexists. reflexivity. }
  destruct Hg as [rest Hg]. rewrite Hg.
  unfold search. rewrite search_from_eq, match_at_section, strip_prefix_app.
  eexists. exists rest. repeat split.
Qed.

(* ================================================================== *)
(** * Further properties of the parser *)
(* ================================================================== *)

Section ParserMore.
Variable U : runtime.

(** What the loop makes of the entries it keeps. *)
Lemma each_service_sound (content : str) (items : list (yaml * yaml)) :
  forall l, each_service U content items = Ret l ->
  forall s, In s l ->
  exists sd,
    In (key_of_name (service_name s), YDict sd) items
    /\ skipped U (service_name s) content = Ret false
    /\ extract_description U sd (service_name s) content = Ret (description s)
    /\ extract_url U sd (u "DOMAIN") = Ret (url s).
Proof.
  induction items as [|[key data] items IH]; cbn [each_service]; intros l H s Hs.
  - injection H as <-. destruct Hs.
  - assert (Hrest : forall l', each_service U content items = Ret l' -> In s l' ->
               exists sd,
                 In (key_of_name (service_name s), YDict sd) ((key, data) :: items)
                 /\ skipped U (service_name s) content = Ret false
                 /\ extract_description U sd (service_name s) content = Ret (description s)
                 /\ extract_url U sd (u "DOMAIN") = Ret (url s)).
    { intros l' Hl' Hin. destruct (IH l' Hl' s Hin) as [sd [H1 H2]].
      exists sd. split; [right; exact H1 | exact H2]. }
    destruct data as [ | | | | | | | | d]; eauto.
    destruct (name_of_key key) as [name|] eqn:Ek; [|discriminate].
    assert (Hkey : key = key_of_name name).
    { destruct key; try discriminate; injection Ek as <-; reflexivity. }
    destruct (skipped U name content) as [[|]|] eqn:Ec; cbn [bind] in H;
      [eauto | | discriminate].
    destruct (extract_description U d name content) as [desc|] eqn:Ed;
      cbn [bind] in H; [|discriminate].
    destruct (extract_url U d (u "DOMAIN")) as [link|] eqn:El;
      cbn [bind] in H; [|discriminate].
    destruct (each_service U content items) as [rest|] eqn:Er;
      cbn [bind] in H; [|discriminate].
    injection H as <-. destruct Hs as [<- | Hs]; [|eauto].
    exists d. cbn [service_name description url fst snd].
    repeat split; auto. left. rewrite Hkey. reflexivity.
Qed.

(** The loop raises as soon as a mapping is declared under a key that
    [re.escape] does not take. *)
Lemma each_service_raises (content : str) (items : list (yaml * yaml))
    (key : yaml) (sd : list (yaml * yaml)) :
  In (key, YDict sd) items ->
  name_of_key key = None ->
  exists e, each_service U content items = Raise e.
Proof.
  intros Hin Hkey. induction items as [|[k0 v0] items IH]; [destruct Hin|].
  cbn [each_service]. destruct Hin as [Heq | Hin].
  - injection Heq as -> ->. rewrite Hkey. eexists. reflexivity.
  - destruct (IH Hin) as [e He]. rewrite He.
    destruct v0 as [ | | | | | | | | d]; try (exists e; reflexivity).
    destruct (name_of_key k0) as [name|]; [|eexists; reflexivity].
    destruct (skipped U name content) as [[|]|]; cbn [bind];
      [exists e; reflexivity | | eexists; reflexivity].
    destruct (extract_description U d name content); cbn [bind]; [|eexists; reflexivity].
    destruct (extract_url U d (u "DOMAIN")); cbn [bind]; eexists; reflexivity.
Qed.

Lemma url_of_rule_https (domain rule url : str) :
  url_of_rule U domain rule = Ret (Some url) ->
  exists host, url = u "https://" ++ host.
Proof.
  unfold url_of_rule. destruct (search U host_pattern rule); [|discriminate].
  destruct (Re.sub U domain_pattern domain _) as [host|]; cbn [bind]; [|discriminate].
  intros H. injection H as <-. exists host. reflexivity.
Qed.

Lemma url_in_dict_rule (domain url : str) (labels : list (yaml * yaml)) :
  url_in_dict U domain labels = Ret (Some url) ->
  exists key rule,
    In (YStr key, YStr rule) labels /\ is_router_rule key = true
    /\ url_of_rule U domain rule = Ret (Some url).
Proof.
  induction labels as [|[k v] labels IH]; cbn [url_in_dict]; [discriminate|].
  assert (Hrest : url_in_dict U domain labels = Ret (Some url) ->
            exists key rule,
              In (YStr key, YStr rule) ((k, v) :: labels) /\ is_router_rule key = true
              /\ url_of_rule U domain rule = Ret (Some url)).
  { intros H. destruct (IH H) as [key [rule [H1 H2]]].
    exists key, rule. split; [right; exact H1 | exact H2]. }
  destruct k; try discriminate.
  destruct (is_router_rule s) eqn:Er; [|exact Hrest].
  destruct v; try discriminate.
  destruct (url_of_rule U domain s0) as [[found|]|] eqn:Eu; cbn [bind];
    [| exact Hrest | discriminate].
  intros H. injection H as <-. exists s, s0. repeat split; auto. left. reflexivity.
Qed.

Lemma url_in_list_rule (domain url : str) (labels : list yaml) :
  url_in_list U domain labels = Ret (Some url) ->
  exists rule,
    In (YStr rule) labels /\ is_router_rule rule = true
    /\ url_of_rule U domain rule = Ret (Some url).
Proof.
  induction labels as [|x labels IH]; cbn [url_in_list]; [discriminate|].
  assert (Hrest : url_in_list U domain labels = Ret (Some url) ->
            exists rule,
              In (YStr rule) (x :: labels) /\ is_router_rule rule = true
              /\ url_of_rule U domain rule = Ret (Some url)).
  { intros H. destruct (IH H) as [rule [H1 H2]].
    exists rule. split; [right; exact H1 | exact H2]. }
  destruct x; try exact Hrest.
  destruct (is_router_rule s) eqn:Er; [|exact Hrest].
  destruct (url_of_rule U domain s) as [[found|]|] eqn:Eu; cbn [bind];
    [| exact Hrest | discriminate].
  intros H. injection H as <-. exists s. repeat split; auto. left. reflexivity.
Qed.

End ParserMore.

(** X5. Every service [parse_compose_file] lists is declared in the
    loaded data: its name is a key of the [services] mapping, a [str]
    or a [bytes], whose value is a mapping; the search for a
    commented-out declaration of that name in the text found none; and
    its description and URL are what [extract_description] and
    [extract_url] return for that mapping. *)
Theorem listed_service_is_declared (U : runtime) (f : compose_file) (s : service) :
  In s (parse_compose_file U (Some f)) ->
  exists d items sd,
    loaded f = Some (YDict d)
    /\ dict_get d (u "services") = Some (YDict items)
    /\ In (key_of_name (service_name s), YDict sd) items
    /\ skipped U (service_name s) (raw f) = Ret false
    /\ extract_description U sd (service_name s) (raw f) = Ret (description s)
    /\ extract_url U sd (u "DOMAIN") = Ret (url s).
Proof.
  intros H.
  destruct (parse_compose_file_inv U f s H) as (d & items & l & Hl & Hg & E & _ & Hs).
  destruct (each_service_sound U _ _ E s Hs) as [sd Hsd].
  exists d, items, sd. auto.
Qed.

Lemma listed_service_is_declared_witness :
  parse_compose_file unicode_excerpt (Some binary_file)
  = [ (NBytes (u "plex"), YStr [], None) ]
  /\ exists d items sd,
       loaded binary_file = Some (YDict d)
       /\ dict_get d (u "services") = Some (YDict items)
       /\ In (YBytes (u "plex"), YDict sd) items
       /\ skipped unicode_excerpt (NBytes (u "plex")) (raw binary_file) = Ret false
       /\ extract_description unicode_excerpt sd (NBytes (u "plex")) (raw binary_file)
          = Ret (YStr [])
       /\ extract_url unicode_excerpt sd (u "DOMAIN") = Ret None.
Proof.
  split; [vm_compute; reflexivity|].
  apply (@listed_service_is_declared unicode_excerpt binary_file
           (NBytes (u "plex"), YStr [], None)).
  vm_compute. left. reflexivity.
Defined.

(** X6. When the [services] mapping declares a mapping under a key that
    is neither a [str] nor a [bytes] (a number, a boolean, a null, a
    date), the exception raised on that key is caught by the [except]
    clause: the function prints the error and the file gives no service
    at all, the other services of the file included. *)
Theorem non_string_service_key_empties_the_list
    (U : runtime) (f : compose_file) (d items sd : list (yaml * yaml)) (key : yaml)
    (shown : path) :
  loaded f = Some (YDict d) ->
  dict_get d (u "services") = Some (YDict items) ->
  In (key, YDict sd) items ->
  name_of_key key = None ->
  parse_compose_file U (Some f) = []
  /\ exists e, parse_compose_file_prints U shown (Some f) = [ErrorParsing shown e].
Proof.
  intros Hl Hg Hin Hkey.
  unfold parse_compose_file, parse_compose_file_prints, load_services. rewrite Hl.
  assert (Ht : truthy (YDict d) = true) by (destruct d; [discriminate | reflexivity]).
  rewrite Ht, Hg. cbn [negb].
  destruct (@each_service_raises U (raw f) items key sd Hin Hkey) as [e He].
  rewrite He. split; [reflexivity|]. exists e. reflexivity.
Qed.

Lemma non_string_service_key_empties_the_list_witness :
  (parse_compose_file unicode_excerpt (Some numbered_file) = []
   /\ exists e, parse_compose_file_prints unicode_excerpt RootCompose (Some numbered_file)
                = [ErrorParsing RootCompose e])
  /\ parse_compose_file unicode_excerpt (Some plex_file) <> [].
Proof.
  split.
  - apply (@non_string_service_key_empties_the_list unicode_excerpt numbered_file
             [ (YStr (u "services"),
                YDict [ (YStr (u "plex"), plex_service);
                        (YInt 8080, YDict [ (YStr (u "image"), YStr (u "nginx")) ]) ]) ]
             [ (YStr (u "plex"), plex_service);
               (YInt 8080, YDict [ (YStr (u "image"), YStr (u "nginx")) ]) ]
             [ (YStr (u "image"), YStr (u "nginx")) ]
             (YInt 8080) RootCompose).
    + reflexivity.
    + reflexivity.
    + right. left. reflexivity.
    + reflexivity.
  - vm_compute. discriminate.
Defined.

(** X7. A URL that [extract_url] returns starts with [https://] and
    comes from a routing rule among the labels of the service: without
    such a label no URL is returned. *)
Theorem extracted_url_comes_from_a_rule
    (U : runtime) (service_data : list (yaml * yaml)) (domain url : str) :
  extract_url U service_data domain = Ret (Some url) ->
  exists rule host,
    router_rule service_data rule
    /\ url_of_rule U domain rule = Ret (Some url)
    /\ url = u "https://" ++ host.
Proof.
  unfold extract_url, router_rule.
  destruct (dict_get service_data (u "labels")) as [labels|] eqn:El; [|discriminate].
  destruct labels as [ | | | | | | l | | d]; try discriminate; intros H.
  - destruct (@url_in_list_rule U _ _ _ H) as [rule [Hin [Hr Hu]]].
    destruct (@url_of_rule_https U _ _ _ Hu) as [host Hh].
    exists rule, host. split; [|split; assumption].
    right. exists l. auto.
  - destruct (@url_in_dict_rule U _ _ _ H) as [key [rule [Hin [Hr Hu]]]].
    destruct (@url_of_rule_https U _ _ _ Hu) as [host Hh].
    exists rule, host. split; [|split; assumption].
    left. exists d, key. auto.
Qed.

Lemma extracted_url_comes_from_a_rule_witness :
  extract_url unicode_excerpt routed_service (u "DOMAIN")
  = Ret (Some (u "https://whoami.DOMAIN"))
  /\ exists rule host,
       router_rule routed_service rule
       /\ url_of_rule unicode_excerpt (u "DOMAIN") rule
          = Ret (Some (u "https://whoami.DOMAIN"))
       /\ u "https://whoami.DOMAIN" = u "https://" ++ host.
Proof.
  split; [vm_compute; reflexivity|].
  apply (@extracted_url_comes_from_a_rule unicode_excerpt routed_service (u "DOMAIN")
           (u "https://whoami.DOMAIN")).
  vm_compute. reflexivity.
Defined.

(* ================================================================== *)
(** * The order of the parsed services *)
(* ================================================================== *)

Section OrderFacts.

Lemma ltb_asym (a : str) : forall b, Str.ltb a b = true -> Str.ltb b a = false.
Proof.
  induction a as [|x a IH]; intros [|y b]; cbn [Str.ltb]; try congruence.
  destruct (N.ltb_spec x y); destruct (N.ltb_spec y x); try congruence; try lia.
  apply IH.
Qed.

Lemma ltb_false_trans (a : str) :
  forall b c, Str.ltb b a = false -> Str.ltb c b = false -> Str.ltb c a = false.
Proof.
  induction a as [|x a IH]; intros b c Hba Hcb.
  - destruct c; reflexivity.
  - destruct b as [|y b]; [discriminate|].
    destruct c as [|z c]; [cbn in Hcb; discriminate|].
    cbn [Str.ltb] in *.
    destruct (N.ltb_spec y x); [discriminate|].
    destruct (N.ltb_spec x y).
    + destruct (N.ltb_spec z y); [discriminate|].
      destruct (N.ltb_spec z x); [lia|].
      destruct (N.ltb_spec x z); [reflexivity | lia].
    + assert (x = y) by lia. subst y.
      destruct (N.ltb_spec z x); [discriminate|].
      destruct (N.ltb_spec x z); [reflexivity|].
      eapply IH; eauto.
Qed.

Lemma name_ltb_asym (a b : pyname) :
  name_ltb a b = Ret true -> name_ltb b a = Ret false.
Proof.
  destruct a, b; cbn [name_ltb]; try discriminate;
    intros H; injection H as H; rewrite (ltb_asym _ _ H); reflexivity.
Qed.

Lemma name_ltb_false_trans (a b c : pyname) :
  name_ltb b a = Ret false -> name_ltb c b = Ret false -> name_ltb c a = Ret false.
Proof.
  destruct a, b, c; cbn [name_ltb]; try discriminate;
    intros H1 H2; injection H1 as H1; injection H2 as H2;
    rewrite (ltb_false_trans _ _ _ H1 H2); reflexivity.
Qed.

Variable U : runtime.

Lemma not_after_trans (r s t : service) :
  not_after U r s -> not_after U s t -> not_after U r t.
Proof. unfold not_after. intros H1 H2. eapply name_ltb_false_trans; eauto. Qed.

Lemma insert_service_sorted (s : service) (l : list service) :
  StronglySorted (not_after U) l ->
  forall l', insert_service U s l = Ret l' ->
  StronglySorted (not_after U) l'.
Proof.
  induction 1 as [|t l Hl IH Ht]; cbn [insert_service]; intros l' H.
  - injection H as <-. constructor; constructor.
  - destruct (name_ltb (sort_key U t) (sort_key U s)) as [[|]|] eqn:E; cbn [bind] in H;
      [| |discriminate].
    + destruct (insert_service U s l) as [rest|] eqn:Ei; cbn [bind] in H; [|discriminate].
      injection H as <-. constructor; [exact (IH rest eq_refl)|].
      apply Forall_forall. intros x Hx.
      destruct (In_insert_service U _ _ _ Ei Hx) as [-> | Hx'].
      * unfold not_after. apply name_ltb_asym. exact E.
      * rewrite Forall_forall in Ht. apply Ht. exact Hx'.
    + injection H as <-. constructor; [constructor; assumption|].
      constructor; [exact E|].
      eapply Forall_impl; [|exact Ht].
      intros x Hx. eapply not_after_trans; [exact E | exact Hx].
Qed.

Lemma sort_services_sorted (l : list service) :
  forall l', sort_services U l = Ret l' -> StronglySorted (not_after U) l'.
Proof.
  induction l as [|s l IH]; cbn [sort_services]; intros l' H.
  - injection H as <-. constructor.
  - destruct (sort_services U l) as [sorted|]; cbn [bind] in H; [|discriminate].
    eapply insert_service_sorted; [exact (IH sorted eq_refl) | exact H].
Qed.

End OrderFacts.

(** X8. The list [parse_compose_file] returns is sorted by name
    without regard to case: of two services of the list, the
    lower-cased name of the later one is never smaller than that of the
    earlier one. *)
Theorem parsed_services_are_sorted (U : runtime) (compose_path : option compose_file) :
  StronglySorted (not_after U) (parse_compose_file U compose_path).
Proof.
  unfold parse_compose_file. destruct compose_path as [f|]; [|constructor].
  unfold load_services.
  destruct (loaded f) as [data|]; cbn [try_except]; [|constructor].
  destruct (negb (truthy data)); cbn [try_except]; [constructor|].
  destruct data as [ | | | t | | | l | l | d]; cbn [try_except]; try constructor.
  - destruct (contains _ _); cbn [try_except]; constructor.
  - destruct (existsb _ _); cbn [try_except]; constructor.
  - destruct (existsb _ _); cbn [try_except]; constructor.
  - destruct (dict_get d (u "services")) as [v|]; cbn [try_except]; [|constructor].
    destruct v as [ | | | | | | | | items]; cbn [try_except]; try constructor.
    destruct (each_service U (raw f) items) as [l|]; cbn [bind try_except]; [|constructor].
    destruct (sort_services U l) as [sorted|] eqn:Es; cbn [try_except]; [|constructor].
    eapply sort_services_sorted. exact Es.
Qed.

(** X9. [parse_existing_stack_headers] raises the error of the missing
    section exactly when the text of the README does not contain the
    heading text. *)
Theorem section_error_iff_heading_absent (U : runtime) (content : str) :
  parse_existing_stack_headers U content = Raise (ValueError NO_SECTION)
  <-> contains HEADING content = false.
Proof.
  assert (Hs : forall s prev,
             search_from U section_pattern prev s = None <-> contains HEADING s = false).
  { induction s as [|c t IH]; intros prev;
      rewrite search_from_eq, match_at_section; cbn [contains]; unfold startswith.
    - change (strip_prefix HEADING []) with (@None str). cbn [orb]. tauto.
    - destruct (strip_prefix HEADING (c :: t)); cbn [orb].
      + split; discriminate.
      + rewrite <- (IH (Some c)).
        destruct (search_from U section_pattern (Some c) t); cbn [option_map];
          split; congruence. }
  unfold parse_existing_stack_headers, search.
  rewrite <- (Hs content None).
  destruct (search_from U section_pattern None content) as [m|].
  - split; [|discriminate].
    destruct (map (header_of U) (finditer U (header_pattern U) (f_text m)));
      intros H; [|discriminate].
    exfalso. assert (Hne : NO_HEADERS <> NO_SECTION) by (vm_compute; discriminate).
    apply Hne. congruence.
  - split; reflexivity.
Qed.

Example three_services_in_order (U : runtime) :
  map service_name (parse_compose_file U (Some three_services_file))
  = [NStr (u "Authelia"); NStr (u "bazarr"); NStr (u "plex")].
Proof. vm_compute. reflexivity. Qed.

(* ================================================================== *)
(** * Further properties of the preservation of links *)
(* ================================================================== *)

Section PreserveFacts.
Variable U : runtime.

Lemma finditer_go_here (r : regex) (prev : option N) (c : N) (t : str) :
  finditer_go U r 0 prev (c :: t)
  = match match_at U r prev (c :: t) with
    | Some (s', g) =>
        match (length (c :: t) - length s')%nat with
        | O => finditer_go U r 0 (Some c) t
        | S n => (firstn (S n) (c :: t), g) :: finditer_go U r n (Some c) t
        end
    | None => finditer_go U r 0 (Some c) t
    end.
Proof. reflexivity. Qed.

Lemma finditer_go_skip (r : regex) (n : nat) (prev : option N) (c : N) (t : str) :
  finditer_go U r (S n) prev (c :: t) = finditer_go U r n (Some c) t.
Proof. reflexivity. Qed.

(** A text without an opening bracket has no link. *)
Lemma finditer_no_bracket (s : str) :
  Forall (fun c => c <> 91) s ->
  forall skip prev, finditer_go U link_pattern skip prev s = [].
Proof.
  induction 1 as [|c t Hc _ IH]; intros skip prev; [destruct skip; reflexivity|].
  destruct skip as [|n]; [|rewrite finditer_go_skip; apply IH].
  rewrite finditer_go_here.
  assert (Hm : match_at U link_pattern prev (c :: t) = None).
  { unfold match_at, link_pattern, seq. change (u "[") with [91].
    cbn [rmatch lit_match].
    destruct (N.eqb_spec 91 c); [congruence | reflexivity]. }
  rewrite Hm. apply IH.
Qed.

(** Once a match has taken the whole rest of the text, nothing more is
    found or substituted. *)
Lemma finditer_go_skip_all (r : regex) (t : str) :
  forall n prev, (length t <= n)%nat -> finditer_go U r n prev t = [].
Proof.
  induction t as [|c t IH]; intros n prev Hn; [destruct n; reflexivity|].
  destruct n as [|n]; [cbn [length] in Hn; lia|].
  rewrite finditer_go_skip. apply IH. cbn [length] in Hn. lia.
Qed.

Lemma sub_go_skip_all (r : regex) (repl : str -> str) (t : str) :
  forall n prev, (length t <= n)%nat -> sub_go U r repl n prev t = [].
Proof.
  induction t as [|c t IH]; intros n prev Hn; [destruct n; reflexivity|].
  destruct n as [|n]; [cbn [length] in Hn; lia|].
  cbn [sub_go]. apply IH. cbn [length] in Hn. lia.
Qed.

(** The greedy repetition goes to the end of a run of characters of its
    class when the continuation succeeds there. *)
Lemma rep_greedy_stop {A} (p : N -> bool) (w s : str)
    (k : option N -> str -> option A) :
  Forall (fun c => p c = true) w ->
  match s with [] => True | c :: _ => p c = false end ->
  forall prev r, k (last_char prev w) s = Some r ->
  rep true p prev (w ++ s) k = Some r.
Proof.
  intros Hw Hs. induction Hw as [|c w Hc _ IH]; intros prev r Hk.
  - cbn [app]. cbn [last_char fold_left] in Hk.
    destruct s as [|c t]; cbn [rep]; [exact Hk|]. rewrite Hs. exact Hk.
  - cbn [app rep]. rewrite Hc. rewrite (IH (Some c) r Hk). reflexivity.
Qed.

Lemma lit_match_ci_app (l s : str) (prev : option N) :
  lit_match U true l (l ++ s) prev = Some (last_char prev l, s).
Proof.
  revert prev. induction l as [|a l IH]; intros prev; cbn [lit_match app];
    [reflexivity|].
  unfold ieq. rewrite N.eqb_refl. cbn [orb]. apply IH.
Qed.

(** A replacement without backslash stands for itself. *)
Lemma parse_template_plain (t : str) :
  Forall (fun c => c <> BACKSLASH) t ->
  parse_template TText t = Some (map TChr t).
Proof.
  induction 1 as [|c t Hc _ IH]; [reflexivity|].
  cbn [parse_template map].
  destruct (N.eqb_spec c BACKSLASH); [contradiction|].
  cbn [negb]. rewrite IH. reflexivity.
Qed.

Lemma expand_plain (t whole : str) : expand (map TChr t) whole = t.
Proof.
  unfold expand. induction t as [|c t IH]; [reflexivity|].
  cbn [map flat_map app]. rewrite IH. reflexivity.
Qed.

End PreserveFacts.

(** X10. When the previous section has no opening bracket, hence no
    link, [preserve_manual_enhancements] returns the new section as it
    is. *)
Theorem no_link_nothing_to_preserve (U : runtime) (old_section new_section : str) :
  Forall (fun c => c <> 91) old_section ->
  preserve_manual_enhancements U old_section new_section = Ret new_section.
Proof.
  intros H. unfold preserve_manual_enhancements, extract_links, finditer.
  rewrite (finditer_no_bracket U H). reflexivity.
Qed.

Lemma no_link_nothing_to_preserve_witness :
  preserve_manual_enhancements unicode_excerpt (u "**Plex** - Media server") plex_rendered
  = Ret plex_rendered.
Proof.
  apply (@no_link_nothing_to_preserve unicode_excerpt (u "**Plex** - Media server")
           plex_rendered).
  vm_compute. repeat (constructor; [discriminate|]). constructor.
Defined.

Section FirstRun.
Variable U : runtime.

Lemma Forall_other_than (x : N) (s : str) :
  Forall (fun c => c <> x) s -> Forall (fun c => other_than x c = true) s.
Proof.
  intros H. eapply Forall_impl; [|exact H]. intros c Hc. unfold other_than.
  destruct (N.eqb_spec c x); [contradiction | reflexivity].
Qed.

Lemma link_pattern_match (label target : str) (prev : option N) :
  label <> [] -> target <> [] ->
  Forall (fun c => c <> 93) label ->
  Forall (fun c => c <> 41) target ->
  match_at U link_pattern prev (91 :: label ++ 93 :: 40 :: target ++ [41])
  = Some ([], [(2%nat, target); (1%nat, label)]).
Proof.
  intros Hl Ht Fl Ft.
  destruct label as [|c0 l]; [congruence|]. destruct target as [|v0 v]; [congruence|].
  inversion Fl as [|? ? Hc0 Fl']; subst. inversion Ft as [|? ? Hv0 Ft']; subst.
  unfold match_at, link_pattern, seq.
  change (u "[") with [91]. change (u "]") with [93].
  change (u "(") with [40]. change (u ")") with [41].
  cbn [rmatch lit_match app]. rewrite N.eqb_refl.
  unfold other_than at 1.
  destruct (N.eqb_spec c0 93); [contradiction|]. cbn [negb].
  apply rep_greedy_stop; [apply Forall_other_than; exact Fl' | reflexivity |].
  rewrite !N.eqb_refl.
  unfold other_than at 1.
  destruct (N.eqb_spec v0 41); [contradiction|]. cbn [negb].
  apply rep_greedy_stop; [apply Forall_other_than; exact Ft' | reflexivity |].
  rewrite N.eqb_refl.
  change (v0 :: v ++ [41]) with ((v0 :: v) ++ [41]).
  change (c0 :: l ++ 93 :: 40 :: (v0 :: v) ++ [41])
    with ((c0 :: l) ++ 93 :: 40 :: (v0 :: v) ++ [41]).
  rewrite !firstn_prefix. reflexivity.
Qed.

Lemma finditer_one_link (label target : str) :
  label <> [] -> target <> [] ->
  Forall (fun c => c <> 93) label ->
  Forall (fun c => c <> 41) target ->
  finditer U link_pattern (91 :: label ++ 93 :: 40 :: target ++ [41])
  = [ (91 :: label ++ 93 :: 40 :: target ++ [41],
       [(2%nat, target); (1%nat, label)]) ].
Proof.
  intros Hl Ht Fl Ft. unfold finditer.
  rewrite finditer_go_here, link_pattern_match by assumption.
  cbn [length]. rewrite Nat.sub_0_r.
  rewrite finditer_go_skip_all by lia.
  change (S (length (label ++ 93 :: 40 :: target ++ [41])))
    with (length (91 :: label ++ 93 :: 40 :: target ++ [41])).
  rewrite firstn_all. reflexivity.
Qed.

Lemma bold_pattern_match (text : str) (prev : option N) :
  match_at U (bold_pattern text) prev (42 :: 42 :: text ++ [42; 42]) = Some ([], []).
Proof.
  unfold match_at, bold_pattern, seq. change (u "**") with [42; 42].
  cbn [rmatch]. cbn [lit_match]. unfold ieq at 1 2. rewrite N.eqb_refl. cbn [orb].
  rewrite lit_match_ci_app. cbn [lit_match]. unfold ieq. rewrite N.eqb_refl.
  reflexivity.
Qed.

Lemma sub_whole_bold (text template : str) :
  Forall (fun c => c <> BACKSLASH) template ->
  Re.sub U (bold_pattern text) template (42 :: 42 :: text ++ [42; 42]) = Ret template.
Proof.
  intros H. unfold Re.sub. rewrite (parse_template_plain H).
  rewrite sub_go_here, bold_pattern_match.
  cbn [length]. rewrite Nat.sub_0_r.
  rewrite sub_go_skip_all by (cbn [length]; lia).
  rewrite expand_plain, app_nil_r. reflexivity.
Qed.

End FirstRun.

(** X11. When the previous section is a link [[label](target)] and the
    new section is the bold [**label**], the result is the link around
    the bold name, [[**label**](target)]: for every non-empty label
    without closing bracket and every non-empty target without closing
    parenthesis, both free of backslashes and of white space at their
    ends. *)
Theorem first_run_wraps_bold_name (U : runtime) (label target : str) :
  label <> [] -> target <> [] ->
  Forall (fun c => c <> 93 /\ c <> BACKSLASH) label ->
  Forall (fun c => c <> 41 /\ c <> BACKSLASH) target ->
  strip U label = label -> strip U target = target ->
  preserve_manual_enhancements U
    (u "[" ++ label ++ u "](" ++ target ++ u ")")
    (u "**" ++ label ++ u "**")
  = Ret (u "[**" ++ label ++ u "**](" ++ target ++ u ")").
Proof.
  intros Hl Ht Fl Ft Sl St.
  assert (Fl1 : Forall (fun c => c <> 93) label)
    by (eapply Forall_impl; [|exact Fl]; intros c [? _]; assumption).
  assert (Fl2 : Forall (fun c => c <> BACKSLASH) label)
    by (eapply Forall_impl; [|exact Fl]; intros c [_ ?]; assumption).
  assert (Ft1 : Forall (fun c => c <> 41) target)
    by (eapply Forall_impl; [|exact Ft]; intros c [? _]; assumption).
  assert (Ft2 : Forall (fun c => c <> BACKSLASH) target)
    by (eapply Forall_impl; [|exact Ft]; intros c [_ ?]; assumption).
  unfold preserve_manual_enhancements, extract_links.
  change (u "[") with [91]. change (u "](") with [93; 40]. change (u ")") with [41].
  change (u "**") with [42; 42]. cbn [app].
  rewrite (@finditer_one_link U label target Hl Ht Fl1 Ft1).
  cbn [fold_left]. unfold add_link, grp. cbn [snd group Nat.eqb]. rewrite Sl, St.
  cbn [dict_set apply_links]. unfold apply_link. cbn [apply_first].
  unfold search. rewrite search_from_eq, bold_pattern_match.
  rewrite sub_whole_bold.
  - reflexivity.
  - change (u "[**") with [91; 42; 42]. change (u "**](") with [42; 42; 93; 40].
    change (u ")") with [41].
    repeat (apply Forall_app; split); try assumption;
      repeat (constructor; [discriminate|]); constructor.
Qed.

Lemma first_run_wraps_bold_name_witness :
  preserve_manual_enhancements unicode_excerpt
    (u "[Plex](https://plex.example.com)") (u "**Plex**")
  = Ret (u "[**Plex**](https://plex.example.com)").
Proof.
  apply (@first_run_wraps_bold_name unicode_excerpt (u "Plex")
           (u "https://plex.example.com")).
  - discriminate.
  - discriminate.
  - vm_compute. repeat (constructor; [split; discriminate|]). constructor.
  - vm_compute. repeat (constructor; [split; discriminate|]). constructor.
  - vm_compute. reflexivity.
  - vm_compute. reflexivity.
Defined.

Section TemplateFacts.

(** A template whose first backslash is followed by a bad escape
    letter is rejected. *)
Lemma parse_template_bad_escape (pre post : str) (c : N) :
  Forall (fun x => x <> BACKSLASH) pre ->
  bad_escape_letter c = true ->
  parse_template TText (pre ++ BACKSLASH :: c :: post) = None.
Proof.
  intros Hpre Hc. induction Hpre as [|x pre Hx _ IH].
  - cbn [app parse_template]. rewrite N.eqb_refl. cbn [negb].
    unfold bad_escape_letter in Hc. apply andb_prop in Hc. destruct Hc as [Hl Hn].
    apply negb_true_iff in Hn. cbn [existsb] in Hn.
    repeat (apply orb_false_elim in Hn; destruct Hn as [? Hn]).
    assert (H48 : (c =? 48) = false).
    { destruct (N.eqb_spec c 48); [subst; discriminate | reflexivity]. }
    assert (Hd : ascii_digit c = false).
    { unfold ascii_digit, ascii_upper, ascii_lower in *.
      destruct (N.leb_spec 48 c); destruct (N.leb_spec c 57); try reflexivity.
      destruct (N.leb_spec 65 c); [lia|]. destruct (N.leb_spec 97 c); [lia|].
      discriminate. }
    assert (Hb : (c =? BACKSLASH) = false).
    { destruct (N.eqb_spec c BACKSLASH); [subst; discriminate | reflexivity]. }
    repeat match goal with H : (c =? _) = false |- _ => rewrite H; clear H end.
    rewrite Hd, Hl. reflexivity.
  - cbn [app parse_template].
    destruct (N.eqb_spec x BACKSLASH); [contradiction|].
    cbn [negb]. rewrite IH. reflexivity.
Qed.

End TemplateFacts.

(** X12. [update_readme] passes the new section to [re.sub] as a
    replacement template.  When the section to write has a backslash
    followed by a letter that is no escape of a template, and no
    backslash before it, the substitution raises: the exception leaves
    [update_readme], the README is not written and the process ends
    with status 1. *)
Theorem bad_escape_in_section_aborts_update
    (U : runtime) (stacks : stacks_t) (w : world) (content : str)
    (stack_headers : headers_t) (new_section pre post : str) (c : N) :
  collect_services U w = Ret stacks ->
  readme w = Some content ->
  parse_existing_stack_headers U content = Ret stack_headers ->
  fst (validate_stacks U stack_headers stacks) = true ->
  (forall old_match, search U section_pattern content = Some old_match ->
     preserve_manual_enhancements U (f_text old_match)
       (generate_service_section U stack_headers stacks) = Ret new_section) ->
  new_section = pre ++ BACKSLASH :: c :: post ->
  Forall (fun x => x <> BACKSLASH) pre ->
  bad_escape_letter c = true ->
  update_readme U stacks w = (Raise ReError, w) /\ run U w = (1%Z, w).
Proof.
  intros Hc Hr Hp Hv Hn -> Hpre Hbad.
  assert (Hu : update_readme U stacks w = (Raise ReError, w)).
  { unfold update_readme, io_bind, io_lift, io_ret.
    rewrite Hr, Hp, (validate_quiet U _ _ Hv), Hv. cbn [print_lines negb].
    unfold updated_content.
    unfold parse_existing_stack_headers in Hp.
    destruct (search U section_pattern content) as [old_match|]; [|discriminate].
    rewrite (Hn old_match eq_refl). cbn [bind].
    unfold Re.sub. rewrite (@parse_template_bad_escape pre post c Hpre Hbad). reflexivity. }
  split; [exact Hu|].
  rewrite run_status, main_eq. unfold collect_and_report.
  destruct (print_lines U _) as [[]|]; cbn [bind]; [|reflexivity].
  rewrite Hc. cbn [bind].
  destruct (print_lines U _) as [[]|]; cbn [bind]; [|reflexivity].
  rewrite Hu. reflexivity.
Qed.

Lemma bad_escape_in_section_aborts_update_witness :
  update_readme unicode_excerpt [ (u "root", [ (NStr (u "backup"), YStr (u "Copies to D:\data"), None) ]) ]
    backup_world = (Raise ReError, backup_world)
  /\ run unicode_excerpt backup_world = (1%Z, backup_world).
Proof.
  apply (@bad_escape_in_section_aborts_update unicode_excerpt
           [ (u "root", [ (NStr (u "backup"), YStr (u "Copies to D:\data"), None) ]) ]
           backup_world backup_readme [ (u "Root", u "root") ]
           (HEADING ++ [NL; NL] ++ INTRO ++ [NL; NL] ++ u "### Root" ++ [NL; NL]
            ++ u "**Backup** - Copies to D:\data" ++ [NL])
           (HEADING ++ [NL; NL] ++ INTRO ++ [NL; NL] ++ u "### Root" ++ [NL; NL]
            ++ u "**Backup** - Copies to D:")
           (u "ata" ++ [NL]) 100).
  - vm_compute. reflexivity.
  - reflexivity.
  - vm_compute. reflexivity.
  - vm_compute. reflexivity.
  - intros old_match H. vm_compute in H. injection H as <-. vm_compute. reflexivity.
  - vm_compute. reflexivity.
  - vm_compute. repeat (constructor; [discriminate|]). constructor.
  - reflexivity.
Defined.

(* ================================================================== *)
(** * Further properties of the description taken from a comment *)
(* ================================================================== *)

Section CommentFacts.
Variable U : runtime.

Lemma lstrip_no_leading_space (s : str) : no_leading_space U (lstrip U s).
Proof.
  induction s as [|c t IH]; cbn [lstrip]; [exact I|].
  destruct (is_space U c) eqn:E; [exact IH | exact E].
Qed.

Lemma lstrip_length (s : str) : (length (lstrip U s) <= length s)%nat.
Proof.
  induction s as [|c t IH]; cbn [lstrip length]; [lia|].
  destruct (is_space U c); cbn [length]; lia.
Qed.

(** Stripping at the right keeps a first character that is not white
    space. *)
Lemma lstrip_snoc (a : str) (c : N) :
  is_space U c = false -> exists w, lstrip U (a ++ [c]) = w ++ [c].
Proof.
  intros Hc. induction a as [|x a IH]; cbn [app lstrip].
  - rewrite Hc. exists []. reflexivity.
  - destruct (is_space U x); [exact IH|]. exists (x :: a). reflexivity.
Qed.

Lemma strip_no_leading_space (s : str) : no_leading_space U (strip U s).
Proof.
  unfold strip, rstrip.
  pose proof (lstrip_no_leading_space s) as H.
  destruct (lstrip U s) as [|c t]; [exact I|].
  cbn [no_leading_space] in H. cbn [rev].
  destruct (@lstrip_snoc (rev t) c H) as [w Hw]. rewrite Hw.
  rewrite rev_app_distr. cbn [rev app]. exact H.
Qed.

(** The greedy [\s*] at the end of a pattern takes all the white space
    there is. *)
Lemma rep_greedy_all (g : groups) (s : str) :
  forall prev,
  rep true (is_space U) prev s (fun _ s' => Some (s', g)) = Some (lstrip U s, g).
Proof.
  induction s as [|c t IH]; intros prev; cbn [rep lstrip]; [reflexivity|].
  destruct (is_space U c); [|reflexivity]. rewrite IH. reflexivity.
Qed.

(** Past the start of the text, [^] never matches again. *)
Lemma bullet_not_later (repl : str -> str) (s : str) :
  forall x, sub_go U (bullet_pattern U) repl 0 (Some x) s = s.
Proof.
  induction s as [|c t IH]; intros x; [reflexivity|].
  rewrite sub_go_here. unfold match_at, bullet_pattern, seq at 1.
  cbn [rmatch]. f_equal. apply IH.
Qed.

Lemma bullet_skip (repl : str -> str) (t : str) :
  forall x,
  sub_go U (bullet_pattern U) repl (length t - length (lstrip U t)) (Some x) t
  = lstrip U t.
Proof.
  induction t as [|c t IH]; intros x; [reflexivity|].
  cbn [lstrip]. destruct (is_space U c) eqn:E.
  - pose proof (lstrip_length t) as Hl.
    replace (length (c :: t) - length (lstrip U t))%nat
      with (S (length t - length (lstrip U t))) by (cbn [length]; lia).
    rewrite sub_go_skip. apply IH.
  - rewrite Nat.sub_diag. apply bullet_not_later.
Qed.

(** [re.sub(r"^[-*]\s*", "", comment)]: a leading bullet goes with the
    white space after it. *)
Lemma bullet_removed (comment : str) :
  sub_plain U (bullet_pattern U) [] comment
  = match comment with
    | c :: t => if (c =? 45) || (c =? 42) then lstrip U t else comment
    | [] => []
    end.
Proof.
  unfold sub_plain. destruct comment as [|c t]; [reflexivity|].
  rewrite sub_go_here. unfold match_at, bullet_pattern, seq at 1. cbn [rmatch].
  destruct ((c =? 45) || (c =? 42)).
  - rewrite rep_greedy_all.
    pose proof (lstrip_length t) as Hl.
    replace (length (c :: t) - length (lstrip U t))%nat
      with (S (length t - length (lstrip U t))) by (cbn [length]; lia).
    cbn [app]. apply bullet_skip.
  - f_equal. apply bullet_not_later.
Qed.

End CommentFacts.

(** What [extract_description] makes of the comment a pattern finds. *)
Lemma comment_found_is_clean (U : runtime) (pattern : regex) (compose_content : str) :
  startswith (comment_found_by U pattern compose_content) (u "!") = false
  /\ no_leading_space U (comment_found_by U pattern compose_content).
Proof.
  unfold comment_found_by.
  destruct (search U pattern compose_content) as [m|];
    [|split; [reflexivity | exact I]].
  rewrite bullet_removed.
  pose proof (strip_no_leading_space U (grp 1 (f_groups m))) as Hs.
  destruct (strip U (grp 1 (f_groups m))) as [|c t] eqn:Ec;
    [split; [reflexivity | exact I]|].
  assert (Hclean : no_leading_space U
                     (if (c =? 45) || (c =? 42) then lstrip U t else c :: t)).
  { destruct ((c =? 45) || (c =? 42)); [apply lstrip_no_leading_space | exact Hs]. }
  destruct (if (c =? 45) || (c =? 42) then lstrip U t else c :: t) as [|d r];
    [split; [reflexivity | exact I]|].
  cbn [andb].
  destruct (startswith (d :: r) (u "!")) eqn:Eb; cbn [negb].
  - split; [reflexivity | exact I].
  - split; [exact Eb | exact Hclean].
Qed.

(** X13. The description [extract_description] takes from the comment
    above a declaration never starts with an exclamation mark, which
    marks a directive, nor with white space; a leading bullet ([-] or
    [*]) is removed with the white space after it.  This holds for the
    pattern of a name that is a [str], and for any other pattern, hence
    for a name that is a [bytes]. *)
Theorem comment_description_is_clean (U : runtime) (name compose_content : str) :
  (startswith (comment_description U name compose_content) (u "!") = false
   /\ no_leading_space U (comment_description U name compose_content))
  /\ forall pattern,
       startswith (comment_found_by U pattern compose_content) (u "!") = false
       /\ no_leading_space U (comment_found_by U pattern compose_content).
Proof.
  split; [apply comment_found_is_clean|].
  intros pattern. apply comment_found_is_clean.
Qed.

Example directive_comment_is_no_description (U : runtime) :
  comment_description U (u "whoami") directive_text = []
  /\ comment_description U (u "whoami") bullet_text = u "Tiny test server".
Proof. split; vm_compute; reflexivity. Qed.
